(** * Garagem Autonoma de Logistica: the four 0/1 knapsack solvers

    A shallow embedding of [main.py]: the greedy solver [mochila_gulosa],
    the pure recursive solver [mochila_recursiva], the memoized solver
    [mochila_memo] (its dictionary is threaded as a [gmap]) and the
    bottom-up table solver [mochila_pd] (its table is a list of rows
    updated by index, and a subscript out of range raises [IndexError]).

    Python integers are unbounded: they are [Z]. *)

From Stdlib Require Import ZArith Lia.
From stdpp Require Import base option list gmap strings sorting.

Local Open Scope Z_scope.

(** ** Data model *)

(** [@dataclass class Projeto]: nome, valor, custo. *)
Record Projeto := MkProjeto {
  nome : string;
  valor : Z;
  custo : Z;
}.

(** The exceptions a solver can end with. *)
Inductive excecao := ZeroDivisionError | IndexError | OverflowError.

(** A computation that returns or raises. *)
Inductive res (A : Type) :=
  | Ret (a : A)
  | Raise (e : excecao).
Arguments Ret {A} a.
Arguments Raise {A} e.

(** Sequencing: an exception of the first part skips the rest. *)
#[global] Instance res_bind : MBind res := fun A B (k : A -> res B) (m : res A) =>
  match m with
  | Ret a => k a
  | Raise e => Raise e
  end.

(** A [for] loop whose body may raise: the state is threaded from left to
    right and the first exception ends the loop. *)
Fixpoint para {A T} (xs : list A) (corpo : A -> T -> res T) (s : T) : res T :=
  match xs with
  | [] => Ret s
  | x :: xs' => s' ← corpo x s; para xs' corpo s'
  end.

(** Sums over a selection of projects. *)
Definition soma_valor (ps : list Projeto) : Z := foldr (fun p a => valor p + a) 0 ps.
Definition soma_custo (ps : list Projeto) : Z := foldr (fun p a => custo p + a) 0 ps.

(** The true division [a / b] of two integers gives the double nearest to
    the quotient, and raises [OverflowError] ("integer division result too
    large for a float") when that is beyond the largest double: when
    [|a| >= (2^1024 - 2^970) * |b|], the bound being half way between the
    largest double [2^1024 - 2^971] and [2^1024]. *)
Definition limite_float : Z := 2 ^ 1024 - 2 ^ 970.

Definition transborda (a b : Z) : bool := limite_float * Z.abs b <=? Z.abs a.
Arguments transborda : simpl never.

(** Every ratio value/cost is defined and within the range of a double. *)
Definition razoes_no_alcance (ps : list Projeto) : Prop :=
  Forall (fun p => Z.abs (valor p) < limite_float * Z.abs (custo p)) ps.

(** The interface contract of section 6: positive costs, non-negative
    values. *)
Definition custos_positivos (ps : list Projeto) : Prop := Forall (fun p => 0 < custo p) ps.
Definition valores_nao_negativos (ps : list Projeto) : Prop := Forall (fun p => 0 <= valor p) ps.

(** ** Phase 2: pure recursion *)

(** [resolver projetos k c] is the inner function [resolver(i, c)] of
    [mochila_recursiva] at [i = k - 1]: the index only ever steps down by
    one from [n - 1], so [k = 0] is the test [i < 0] and [S i] reads
    [projetos[i]], which is always in range there. *)
Fixpoint resolver (projetos : list Projeto) (k : nat) (c : Z) : Z * list string :=
  match k with
  | O => (0, [])
  | S i =>
    if c <=? 0 then (0, [])
    else
      match projetos !! i with
      | None => (0, [])
      | Some projeto =>
        let '(valor_sem, itens_sem) := resolver projetos i c in
        if custo projeto >? c then (valor_sem, itens_sem)
        else
          let '(valor_com0, itens_com0) := resolver projetos i (c - custo projeto) in
          let valor_com := valor_com0 + valor projeto in
          let itens_com := itens_com0 ++ [nome projeto] in
          if valor_com >? valor_sem then (valor_com, itens_com)
          else (valor_sem, itens_sem)
      end
  end.

Definition mochila_recursiva (projetos : list Projeto) (capacidade : Z) : Z * list string :=
  let n := length projetos in
  resolver projetos n capacidade.

(** ** Phase 3: recursion with a memo dictionary *)

(** The dictionary [memo], keyed by [(i, c)], is passed in and out of every
    call.  The stored lists are never mutated in place ([itens_com + [...]]
    builds a new list), so sharing them is not observable. *)
Fixpoint resolver_memo (projetos : list Projeto) (k : nat) (c : Z)
    (memo : gmap (nat * Z) (Z * list string)) : (Z * list string) * gmap (nat * Z) (Z * list string) :=
  match k with
  | O => ((0, []), memo)
  | S i =>
    if c <=? 0 then ((0, []), memo)
    else
      match memo !! (i, c) with
      | Some r => (r, memo)
      | None =>
        match projetos !! i with
        | None => ((0, []), memo)
        | Some projeto =>
          let '((valor_sem, itens_sem), memo1) := resolver_memo projetos i c memo in
          if custo projeto >? c then
            ((valor_sem, itens_sem), <[(i, c) := (valor_sem, itens_sem)]> memo1)
          else
            let '((valor_com0, itens_com0), memo2) :=
              resolver_memo projetos i (c - custo projeto) memo1 in
            let valor_com := valor_com0 + valor projeto in
            let itens_com := itens_com0 ++ [nome projeto] in
            if valor_com >? valor_sem then
              ((valor_com, itens_com), <[(i, c) := (valor_com, itens_com)]> memo2)
            else
              ((valor_sem, itens_sem), <[(i, c) := (valor_sem, itens_sem)]> memo2)
        end
      end
  end.

Definition mochila_memo (projetos : list Projeto) (capacidade : Z) : Z * list string :=
  let n := length projetos in
  fst (resolver_memo projetos n capacidade ∅).

(** ** Phase 1: greedy by value/cost ratio *)

Section Gulosa.
(** [p.valor / p.custo] is Python's true division, a float.  The value
    of the float is kept abstract: [divisao] is the quotient where the
    division returns and [menor] the strict order [<] on the results;
    every theorem below holds whatever the two are.  When the division
    raises is not abstract: [ZeroDivisionError] for a zero divisor, else
    [OverflowError] when [transborda] holds. *)
Context {K : Type} (divisao : Z -> Z -> K) (menor : K -> K -> bool).

(** The sort key [lambda p: p.valor / p.custo]: it raises for a zero
    cost, and for a quotient beyond the range of a double. *)
Definition chave (p : Projeto) : res K :=
  if custo p =? 0 then Raise ZeroDivisionError
  else if transborda (valor p) (custo p) then Raise OverflowError
  else Ret (divisao (valor p) (custo p)).

(** [sorted] first computes the key of every element, in input order. *)
Fixpoint decorar (ps : list Projeto) : res (list (K * Projeto)) :=
  match ps with
  | [] => Ret []
  | p :: ps' =>
    k ← chave p;
    resto ← decorar ps';
    Ret ((k, p) :: resto)
  end.

(** [sorted(..., reverse=True)] is stable: among equal keys the input
    order is kept, so an element goes in front of the first one whose key
    is not greater than its own.  (The result of a stable sort does not
    depend on the algorithm, here insertion from the right.) *)
Fixpoint inserir (x : K * Projeto) (l : list (K * Projeto)) : list (K * Projeto) :=
  match l with
  | [] => [x]
  | y :: l' => if menor (fst x) (fst y) then y :: inserir x l' else x :: y :: l'
  end.

Definition ordenar (l : list (K * Projeto)) : list (K * Projeto) := foldr inserir [] l.

(** One turn of the loop over the sorted projects; the state is
    [(restante, valor_total, escolhidos)]. *)
Definition passo_guloso (st : Z * Z * list string) (p : Projeto) : Z * Z * list string :=
  let '(restante, valor_total, escolhidos) := st in
  if custo p <=? restante then
    (restante - custo p, valor_total + valor p, escolhidos ++ [nome p])
  else st.

Definition mochila_gulosa (projetos : list Projeto) (capacidade : Z) : res (Z * list string) :=
  decorados ← decorar projetos;
  let projetos_ordenados := (ordenar decorados).*2 in
  let '(_, valor_total, escolhidos) :=
    foldl passo_guloso (capacidade, 0, []) projetos_ordenados in
  Ret (valor_total, escolhidos).
End Gulosa.

(** ** Phase 4: bottom-up table *)

(** A Python subscript [l[i]]: a negative [i] counts from the end, and
    outside [-len(l) .. len(l) - 1] it raises [IndexError]. *)
Definition indice {A} (l : list A) (i : Z) : res nat :=
  let n := Z.of_nat (length l) in
  if (0 <=? i) && (i <? n) then Ret (Z.to_nat i)
  else if (i <? 0) && (- n <=? i) then Ret (Z.to_nat (n + i))
  else Raise IndexError.

Definition ler {A} (l : list A) (i : Z) : res A :=
  j ← indice l i;
  match l !! j with
  | Some x => Ret x
  | None => Raise IndexError
  end.

Definition escrever {A} (l : list A) (i : Z) (x : A) : res (list A) :=
  j ← indice l i;
  Ret (<[j := x]> l).

(** [tabela[i][c]] and [tabela[i][c] = v]. *)
Definition ler2 (tabela : list (list Z)) (i c : Z) : res Z :=
  linha ← ler tabela i;
  ler linha c.

Definition escrever2 (tabela : list (list Z)) (i c v : Z) : res (list (list Z)) :=
  linha ← ler tabela i;
  linha' ← escrever linha c v;
  escrever tabela i linha'.

(** [[[0] * (capacidade + 1) for _ in range(n + 1)]]: the rows are distinct
    objects, and a negative count gives the empty list. *)
Definition tabela_inicial (n capacidade : Z) : list (list Z) :=
  replicate (Z.to_nat (n + 1)) (replicate (Z.to_nat (capacidade + 1)) 0).

(** The body of the inner loop, at row [i] and column [c]. *)
Definition preencher_celula (projeto : Projeto) (i c : Z) (tabela : list (list Z)) : res (list (list Z)) :=
  if custo projeto >? c then
    v ← ler2 tabela (i - 1) c;
    escrever2 tabela i c v
  else
    a ← ler2 tabela (i - 1) c;
    b ← ler2 tabela (i - 1) (c - custo projeto);
    escrever2 tabela i c (Z.max a (valor projeto + b)).

Definition preencher_linha (projetos : list Projeto) (capacidade : Z) (i : Z)
    (tabela : list (list Z)) : res (list (list Z)) :=
  projeto ← ler projetos (i - 1);
  para (seqZ 0 (capacidade + 1)) (preencher_celula projeto i) tabela.

(** The forward fill: [for i in range(1, n + 1)]. *)
Definition preencher (projetos : list Projeto) (capacidade : Z) : res (list (list Z)) :=
  let n := Z.of_nat (length projetos) in
  para (seqZ 1 n) (preencher_linha projetos capacidade) (tabela_inicial n capacidade).

(** One turn of the reconstruction loop; the state is
    [(itens_escolhidos, c)]. *)
Definition passo_reconstrucao (projetos : list Projeto) (tabela : list (list Z)) (i : Z)
    (st : list string * Z) : res (list string * Z) :=
  let '(itens_escolhidos, c) := st in
  x ← ler2 tabela i c;
  y ← ler2 tabela (i - 1) c;
  if x =? y then Ret (itens_escolhidos, c)
  else
    projeto ← ler projetos (i - 1);
    Ret (itens_escolhidos ++ [nome projeto], c - custo projeto).

(** The backward walk: [for i in range(n, 0, -1)], then [reverse()]. *)
Definition reconstruir (projetos : list Projeto) (capacidade : Z) (tabela : list (list Z))
    : res (Z * list string) :=
  let n := Z.of_nat (length projetos) in
  valor_final ← ler2 tabela n capacidade;
  st ← para (reverse (seqZ 1 n)) (passo_reconstrucao projetos tabela) ([], capacidade);
  Ret (valor_final, reverse st.1).

Definition mochila_pd (projetos : list Projeto) (capacidade : Z) : res (Z * list string) :=
  tabela ← preencher projetos capacidade;
  reconstruir projetos capacidade tabela.

(** ** The test data of [main.py] *)

Definition exemplo_enunciado : list Projeto * Z :=
  ([MkProjeto "A" 12 4; MkProjeto "B" 10 3; MkProjeto "C" 7 2; MkProjeto "D" 4 3], 10).

Definition exemplo_garagem_autonoma : list Projeto * Z :=
  ([MkProjeto "Instalação de Painéis Solares" 50 6;
    MkProjeto "Sistema de Baterias" 40 5;
    MkProjeto "Braços Robóticos Autônomos" 45 6;
    MkProjeto "Frota de Drones de Entrega" 35 4;
    MkProjeto "Estação de Recarga Elétrica" 30 3;
    MkProjeto "Painel Central de IA" 55 5;
    MkProjeto "Esteiras e Triagem Inteligente" 28 3;
    MkProjeto "Ferramentas de Manutenção" 12 2], 10).

(** A project whose ratio value/cost is beyond the range of a double. *)
Definition projeto_enorme : Projeto := MkProjeto "A" (10 ^ 400) 1.

(** Exact comparison of ratios by cross-multiplication, for running the
    greedy solver on concrete data with positive costs. *)
Definition razao_exata (v c : Z) : Z * Z := (v, c).
Definition razao_menor (a b : Z * Z) : bool := a.1 * b.2 <? b.1 * a.2.

(** ** Vocabulary of the properties *)

(** The memo dictionary only ever holds results of the pure recursion. *)
Definition memo_fiel (projetos : list Projeto) (memo : gmap (nat * Z) (Z * list string)) : Prop :=
  forall i c r, memo !! (i, c) = Some r -> r = resolver projetos (S i) c.

(** Every row has [W] cells. *)
Definition forma (W : nat) (tabela : list (list Z)) : Prop :=
  Forall (fun linha => length linha = W) tabela.

(** The cell at row [i] and column [c], for subscripts in range. *)
Definition cel (tabela : list (list Z)) (i c : nat) : Z :=
  default 0 (tabela !! i ≫= (.!! c)).

(** The table after [tabela[i][c] = v]. *)
Definition atualizar (tabela : list (list Z)) (i c : nat) (v : Z) : list (list Z) :=
  alter (<[c := v]>) i tabela.

(** Rows [0 .. i] of the table hold the values of the recursion. *)
Definition linhas_ok (projetos : list Projeto) (capacidade : Z) (i : nat)
    (tabela : list (list Z)) : Prop :=
  forma (Z.to_nat (capacidade + 1)) tabela /\
  length tabela = S (length projetos) /\
  forall j d, (j <= i)%nat -> (d < Z.to_nat (capacidade + 1))%nat ->
    cel tabela j d = (resolver projetos j (Z.of_nat d)).1.

(** The projects whose name is in a list of names. *)
Definition itens_com_nome (projetos : list Projeto) (nomes : list string) : list Projeto :=
  filter (fun p => nome p ∈ nomes) projetos.

(** The result [r] of a solver is feasible: its names are those of a
    selection of the projects, by index, whose value is the value returned
    and whose costs add up to at most the capacity; when the names of the
    projects are distinct, that selection is the projects that bear the
    names returned. *)
Definition escolha_viavel (projetos : list Projeto) (capacidade : Z) (r : Z * list string) : Prop :=
  (exists sel, sel ⊆+ projetos /\ nome <$> sel = r.2 /\ soma_valor sel = r.1 /\
     soma_custo sel <= capacidade) /\
  (NoDup (nome <$> projetos) -> soma_custo (itens_com_nome projetos r.2) <= capacidade).

(** The value of the result [r] is the sum of the values of the projects
    chosen: of a selection by index that has the names returned and, when
    the names of the projects are distinct, of the projects that bear the
    names returned. *)
Definition valor_coerente (projetos : list Projeto) (r : Z * list string) : Prop :=
  (exists sel, sel ⊆+ projetos /\ nome <$> sel = r.2 /\ r.1 = soma_valor sel) /\
  (NoDup (nome <$> projetos) -> r.1 = soma_valor (itens_com_nome projetos r.2)).

(** Costs that are not negative: zero is allowed. *)
Definition custos_nao_negativos (ps : list Projeto) : Prop := Forall (fun p => 0 <= custo p) ps.

(** The dictionary [memo] at the time [mochila_memo] returns. *)
Definition memo_final (projetos : list Projeto) (capacidade : Z) : gmap (nat * Z) (Z * list string) :=
  (resolver_memo projetos (length projetos) capacidade ∅).2.

(** Two sort keys neither of which is less than the other. *)
Definition chaves_iguais {K} (menor : K -> K -> bool) (k1 k2 : K) : Prop :=
  menor k1 k2 = false /\ menor k2 k1 = false.

(** The recurrence of the inner loop of [mochila_pd], as a function of the
    row [k] and the column [c]: the content of [tabela[k][c]] after the
    fill when no cost is negative. *)
Fixpoint valor_tabela (projetos : list Projeto) (k : nat) (c : Z) : Z :=
  match k with
  | O => 0
  | S i =>
    match projetos !! i with
    | None => 0
    | Some projeto =>
      if custo projeto >? c then valor_tabela projetos i c
      else Z.max (valor_tabela projetos i c)
                 (valor projeto + valor_tabela projetos i (c - custo projeto))
    end
  end.

(** Rows [0 .. i] of the table hold the values of the recurrence. *)
Definition linhas_tabela (projetos : list Projeto) (capacidade : Z) (i : nat)
    (tabela : list (list Z)) : Prop :=
  forma (Z.to_nat (capacidade + 1)) tabela /\
  length tabela = S (length projetos) /\
  forall j d, (j <= i)%nat -> (d < Z.to_nat (capacidade + 1))%nat ->
    cel tabela j d = valor_tabela projetos j (Z.of_nat d).

(** * Properties *)

(** ** The solvers on small inputs *)

Example gulosa_enunciado :
  mochila_gulosa razao_exata razao_menor exemplo_enunciado.1 exemplo_enunciado.2
    = Ret (29, ["C"; "B"; "A"]).
Proof. reflexivity. Qed.

(** The greedy solver can miss the optimum. *)
Example gulosa_nao_otima :
  mochila_gulosa razao_exata razao_menor [MkProjeto "A" 6 1; MkProjeto "B" 50 10] 10
    = Ret (6, ["A"]) /\
  mochila_recursiva [MkProjeto "A" 6 1; MkProjeto "B" 50 10] 10 = (50, ["B"]).
Proof. split; reflexivity. Qed.

(** Equal ratios keep the input order. *)
Example gulosa_empate :
  mochila_gulosa razao_exata razao_menor [MkProjeto "A" 2 1; MkProjeto "B" 4 2] 1
    = Ret (2, ["A"]) /\
  mochila_gulosa razao_exata razao_menor [MkProjeto "B" 4 2; MkProjeto "A" 2 1] 2
    = Ret (4, ["B"]).
Proof. split; reflexivity. Qed.

Example tabela_enunciado :
  preencher exemplo_enunciado.1 exemplo_enunciado.2 =
    Ret [[0; 0; 0; 0; 0; 0; 0; 0; 0; 0; 0];
         [0; 0; 0; 0; 12; 12; 12; 12; 12; 12; 12];
         [0; 0; 0; 10; 12; 12; 12; 22; 22; 22; 22];
         [0; 0; 7; 10; 12; 17; 19; 22; 22; 29; 29];
         [0; 0; 7; 10; 12; 17; 19; 22; 22; 29; 29]].
Proof. vm_compute. reflexivity. Qed.

Example garagem_autonoma_97 :
  mochila_recursiva exemplo_garagem_autonoma.1 exemplo_garagem_autonoma.2 =
    (97, ["Estação de Recarga Elétrica"; "Painel Central de IA";
          "Ferramentas de Manutenção"]) /\
  mochila_memo exemplo_garagem_autonoma.1 exemplo_garagem_autonoma.2 =
    mochila_recursiva exemplo_garagem_autonoma.1 exemplo_garagem_autonoma.2 /\
  mochila_pd exemplo_garagem_autonoma.1 exemplo_garagem_autonoma.2 =
    Ret (mochila_recursiva exemplo_garagem_autonoma.1 exemplo_garagem_autonoma.2) /\
  mochila_gulosa razao_exata razao_menor exemplo_garagem_autonoma.1
      exemplo_garagem_autonoma.2 =
    Ret (97, ["Painel Central de IA"; "Estação de Recarga Elétrica";
              "Ferramentas de Manutenção"]).
Proof. repeat split; vm_compute; reflexivity. Qed.

(** With a negative capacity the rows are empty and the table solver
    fails on [tabela[n][capacidade]]. *)
Example pd_capacidade_negativa :
  mochila_pd [MkProjeto "A" 5 1] (-1) = Raise IndexError.
Proof. reflexivity. Qed.

(** The division overflows from [2^1024 - 2^970] on, whatever the signs,
    and the keys are computed in input order. *)
Example transborda_limite :
  transborda limite_float 1 = true /\ transborda (limite_float - 1) 1 = false /\
  transborda (- (3 * limite_float)) 3 = true /\ transborda (3 * limite_float - 1) (-3) = false /\
  mochila_gulosa razao_exata razao_menor [projeto_enorme; MkProjeto "B" 5 0] 1
    = Raise OverflowError /\
  mochila_gulosa razao_exata razao_menor [MkProjeto "B" 5 0; projeto_enorme] 1
    = Raise ZeroDivisionError.
Proof. repeat split; vm_compute; reflexivity. Qed.

(** A subscript from the end. *)
Example ler_negativo : ler [10; 20; 30] (-1) = Ret 30 /\ ler [10; 20; 30] (-4) = Raise IndexError.
Proof. split; reflexivity. Qed.

(** ** The pure recursion *)

Lemma resolver_nao_positivo projetos k c :
  c <= 0 -> resolver projetos k c = (0, []).
Proof.
  intros Hc. destruct k as [|i]; simpl; [done|].
  destruct (Z.leb_spec c 0); [done | lia].
Qed.

Lemma memo_fiel_vazio projetos : memo_fiel projetos ∅.
Proof. intros i c r H. by rewrite lookup_empty in H. Qed.

Lemma memo_fiel_insert projetos memo i c :
  memo_fiel projetos memo ->
  memo_fiel projetos (<[(i, c) := resolver projetos (S i) c]> memo).
Proof.
  intros Hm j d r. rewrite lookup_insert. case_decide as Heq.
  - injection Heq as <- <-. by intros [= <-].
  - apply Hm.
Qed.

Lemma resolver_memo_fiel projetos k : forall c memo,
  memo_fiel projetos memo ->
  (resolver_memo projetos k c memo).1 = resolver projetos k c /\
  memo_fiel projetos (resolver_memo projetos k c memo).2.
Proof.
  induction k as [|i IH]; intros c memo Hm; [done|].
  assert (Hins : forall m, memo_fiel projetos m ->
            memo_fiel projetos (<[(i, c) := resolver projetos (S i) c]> m))
    by (intros m; apply memo_fiel_insert).
  assert (Hhit : forall r, memo !! (i, c) = Some r -> r = resolver projetos (S i) c)
    by (intros r; apply Hm).
  remember (resolver projetos (S i) c) as R eqn:HR.
  simpl in HR |- *.
  destruct (c <=? 0); [by subst R|].
  destruct (memo !! (i, c)) as [r|] eqn:Hl.
  { split; [|done]. by apply Hhit. }
  destruct (projetos !! i) as [projeto|]; [|by subst R].
  destruct (IH c memo Hm) as [E1 Hm1].
  destruct (resolver_memo projetos i c memo) as [[valor_sem itens_sem] memo1].
  simpl in E1, Hm1. rewrite <- E1 in HR.
  destruct (custo projeto >? c).
  { subst R. split; [done|]. by apply Hins. }
  destruct (IH (c - custo projeto) memo1 Hm1) as [E2 Hm2].
  destruct (resolver_memo projetos i (c - custo projeto) memo1) as [[valor_com0 itens_com0] memo2].
  simpl in E2, Hm2. rewrite <- E2 in HR.
  destruct (valor_com0 + valor projeto >? valor_sem);
    subst R; (split; [done|]); by apply Hins.
Qed.

Lemma mochila_memo_recursiva projetos capacidade :
  mochila_memo projetos capacidade = mochila_recursiva projetos capacidade.
Proof.
  unfold mochila_memo, mochila_recursiva.
  apply resolver_memo_fiel, memo_fiel_vazio.
Qed.

(** The recursion at [i >= 0] and [c > 0], with the pairs projected. *)
Lemma resolver_S projetos i c p :
  projetos !! i = Some p -> 0 < c ->
  resolver projetos (S i) c =
    if custo p >? c then resolver projetos i c
    else if (resolver projetos i (c - custo p)).1 + valor p >? (resolver projetos i c).1
         then ((resolver projetos i (c - custo p)).1 + valor p,
               (resolver projetos i (c - custo p)).2 ++ [nome p])
         else resolver projetos i c.
Proof.
  intros Hp Hc. simpl. rewrite Hp.
  destruct (Z.leb_spec c 0); [lia|].
  destruct (resolver projetos i c) as [valor_sem itens_sem].
  destruct (custo p >? c); [done|].
  by destruct (resolver projetos i (c - custo p)) as [valor_com0 itens_com0].
Qed.

Lemma soma_valor_app l1 l2 : soma_valor (l1 ++ l2) = soma_valor l1 + soma_valor l2.
Proof. induction l1 as [|p l1 IH]; simpl; [done|]. unfold soma_valor in *. simpl. lia. Qed.

Lemma soma_custo_app l1 l2 : soma_custo (l1 ++ l2) = soma_custo l1 + soma_custo l2.
Proof. induction l1 as [|p l1 IH]; simpl; [done|]. unfold soma_custo in *. simpl. lia. Qed.

Lemma soma_valor_perm l1 l2 : l1 ≡ₚ l2 -> soma_valor l1 = soma_valor l2.
Proof. induction 1; unfold soma_valor in *; simpl; lia. Qed.

Lemma soma_custo_perm l1 l2 : l1 ≡ₚ l2 -> soma_custo l1 = soma_custo l2.
Proof. induction 1; unfold soma_custo in *; simpl; lia. Qed.

Lemma soma_custo_nao_negativa ps : custos_positivos ps -> 0 <= soma_custo ps.
Proof. induction 1; unfold soma_custo in *; simpl; lia. Qed.

Lemma soma_custo_zero ps : custos_positivos ps -> soma_custo ps <= 0 -> ps = [].
Proof.
  intros Hpos. destruct Hpos as [|p ps Hp Hps]; [done|].
  pose proof (soma_custo_nao_negativa ps Hps). unfold soma_custo in *. simpl. lia.
Qed.

(** What the recursion returns is the names and the value of a selection
    of the first [k] projects, kept in input order, that fits in [c]. *)
Lemma resolver_selecao projetos k : forall c,
  0 <= c ->
  exists sel, sel `sublist_of` take k projetos /\
    nome <$> sel = (resolver projetos k c).2 /\
    soma_valor sel = (resolver projetos k c).1 /\
    soma_custo sel <= c.
Proof.
  induction k as [|i IH]; intros c Hc.
  { exists []. simpl. repeat split; [|done]. apply sublist_nil_l. }
  destruct (decide (c = 0)) as [->|Hne].
  { exists []. rewrite resolver_nao_positivo by lia. repeat split; [|done]. apply sublist_nil_l. }
  destruct (projetos !! i) as [p|] eqn:Hp.
  2:{ exists []. simpl. rewrite Hp. destruct (c <=? 0); (repeat split; [|done]); apply sublist_nil_l. }
  rewrite (take_S_r _ _ _ Hp), (resolver_S _ _ _ _ Hp) by lia.
  destruct (IH c Hc) as (sel & Hsub & Hn & Hv & Hk).
  assert (Hsem : exists sel0, sel0 `sublist_of` take i projetos ++ [p] /\
    nome <$> sel0 = (resolver projetos i c).2 /\
    soma_valor sel0 = (resolver projetos i c).1 /\ soma_custo sel0 <= c).
  { exists sel. repeat split; [|done..]. by apply sublist_inserts_r. }
  destruct (Z.gtb_spec (custo p) c); [done|].
  destruct (_ >? _); [|done].
  destruct (IH (c - custo p)) as (sel' & Hsub' & Hn' & Hv' & Hk'); [lia|].
  exists (sel' ++ [p]). simpl. repeat split.
  - by apply sublist_app.
  - by rewrite fmap_app, Hn'.
  - rewrite soma_valor_app, Hv'. unfold soma_valor. simpl. lia.
  - rewrite soma_custo_app. unfold soma_custo in *. simpl. lia.
Qed.

Lemma custos_positivos_sublist l1 l2 :
  l1 `sublist_of` l2 -> custos_positivos l2 -> custos_positivos l1.
Proof.
  unfold custos_positivos. induction 1 as [|p l1 l2 _ IH|p l1 l2 _ IH]; intros Hpos.
  - done.
  - apply Forall_cons in Hpos as [? ?]. apply Forall_cons. auto.
  - apply Forall_cons in Hpos as [? ?]. auto.
Qed.

(** No selection of the first [k] projects that fits in [c] is worth more
    than what the recursion returns. *)
Lemma resolver_otimo projetos k : forall c sel,
  custos_positivos projetos ->
  (k <= length projetos)%nat ->
  sel `sublist_of` take k projetos ->
  soma_custo sel <= c ->
  soma_valor sel <= (resolver projetos k c).1.
Proof.
  induction k as [|i IH]; intros c sel Hpos Hlen Hsub Hfit.
  { by apply sublist_nil_r in Hsub as ->. }
  assert (Hselpos : custos_positivos sel).
  { eapply custos_positivos_sublist; [done|].
    eapply custos_positivos_sublist; [apply sublist_take|done]. }
  destruct (decide (c <= 0)) as [Hc|Hc].
  { rewrite resolver_nao_positivo by done.
    rewrite (soma_custo_zero sel); [done..|lia]. }
  destruct (lookup_lt_is_Some_2 projetos i) as [p Hp]; [lia|].
  rewrite (take_S_r _ _ _ Hp) in Hsub.
  rewrite (resolver_S _ _ _ _ Hp) by lia.
  apply sublist_app_r in Hsub as (l1 & l2 & -> & Hl1 & Hl2).
  assert (Hl1pos : custos_positivos l1).
  { eapply custos_positivos_sublist; [|done]. by apply sublist_inserts_r. }
  pose proof (soma_custo_nao_negativa l1 Hl1pos) as Hl1c.
  rewrite soma_custo_app in Hfit. rewrite soma_valor_app.
  apply sublist_cons_r in Hl2 as [Hl2|(l2' & -> & Hl2)].
  - apply sublist_nil_r in Hl2 as ->.
    assert (soma_valor l1 <= (resolver projetos i c).1) as Hsem.
    { apply IH; [done|lia|done|]. change (soma_custo []) with 0 in Hfit. lia. }
    change (soma_valor []) with 0.
    destruct (custo p >? c); [lia|].
    destruct (Z.gtb_spec ((resolver projetos i (c - custo p)).1 + valor p)
                         (resolver projetos i c).1); simpl; lia.
  - apply sublist_nil_r in Hl2 as ->.
    change (soma_custo [p]) with (custo p + 0) in Hfit.
    change (soma_valor [p]) with (valor p + 0).
    assert (soma_valor l1 <= (resolver projetos i (c - custo p)).1) as Hcom.
    { apply IH; [done|lia|done|lia]. }
    destruct (Z.gtb_spec (custo p) c); [lia|].
    destruct (Z.gtb_spec ((resolver projetos i (c - custo p)).1 + valor p)
                         (resolver projetos i c).1); simpl; lia.
Qed.

(** The value is never negative, and grows with the capacity and with the
    number of projects considered. *)
Lemma resolver_nao_negativo projetos k : forall c, 0 <= (resolver projetos k c).1.
Proof.
  induction k as [|i IH]; intros c; [done|].
  destruct (decide (c <= 0)) as [Hc|Hc]; [by rewrite resolver_nao_positivo|].
  destruct (projetos !! i) as [p|] eqn:Hp.
  2:{ simpl. rewrite Hp. by destruct (c <=? 0). }
  rewrite (resolver_S _ _ _ _ Hp) by lia.
  destruct (custo p >? c); [done|].
  destruct (Z.gtb_spec ((resolver projetos i (c - custo p)).1 + valor p)
                       (resolver projetos i c).1); simpl; [|done].
  specialize (IH c). lia.
Qed.

Lemma resolver_mono_i projetos i c :
  (i < length projetos)%nat ->
  (resolver projetos i c).1 <= (resolver projetos (S i) c).1.
Proof.
  intros Hlen.
  destruct (decide (c <= 0)) as [Hc|Hc]; [by rewrite !resolver_nao_positivo|].
  destruct (lookup_lt_is_Some_2 projetos i) as [p Hp]; [done|].
  rewrite (resolver_S _ _ _ _ Hp) by lia.
  destruct (custo p >? c); [done|].
  destruct (Z.gtb_spec ((resolver projetos i (c - custo p)).1 + valor p)
                       (resolver projetos i c).1); simpl; lia.
Qed.

Lemma resolver_mono_linhas projetos i j c :
  (i <= j <= length projetos)%nat ->
  (resolver projetos i c).1 <= (resolver projetos j c).1.
Proof.
  induction j as [|j IH]; intros Hij.
  { by assert (i = O) as -> by lia. }
  destruct (decide (i = S j)) as [->|Hne]; [done|].
  etrans; [apply IH; lia|]. apply resolver_mono_i. lia.
Qed.

Lemma resolver_mono_c projetos k : forall c c',
  (k <= length projetos)%nat -> c <= c' ->
  (resolver projetos k c).1 <= (resolver projetos k c').1.
Proof.
  induction k as [|i IH]; intros c c' Hlen Hcc; [done|].
  destruct (decide (c <= 0)) as [Hc|Hc].
  { rewrite (resolver_nao_positivo _ _ c) by done. apply resolver_nao_negativo. }
  destruct (lookup_lt_is_Some_2 projetos i) as [p Hp]; [lia|].
  rewrite !(resolver_S _ _ _ _ Hp) by lia.
  pose proof (IH c c' ltac:(lia) Hcc).
  pose proof (IH (c - custo p) (c' - custo p) ltac:(lia) ltac:(lia)).
  destruct (Z.gtb_spec (custo p) c), (Z.gtb_spec (custo p) c'); try lia;
  repeat match goal with
  | |- context [ ?a >? ?b ] => destruct (Z.gtb_spec a b)
  end; simpl; lia.
Qed.

(** ** Loops *)

(** A loop whose every turn returns and keeps an invariant, indexed by the
    number of turns taken, returns with the invariant. *)
Lemma para_invariante {A T} (I : nat -> T -> Prop) (corpo : A -> T -> res T) xs : forall s,
  I O s ->
  (forall k x s, xs !! k = Some x -> I k s -> exists s', corpo x s = Ret s' /\ I (S k) s') ->
  exists s', para xs corpo s = Ret s' /\ I (length xs) s'.
Proof.
  revert I. induction xs as [|x xs IH]; intros I s H0 Hstep.
  { by exists s. }
  destruct (Hstep O x s eq_refl H0) as (s1 & E1 & H1).
  destruct (IH (fun k => I (S k)) s1 H1) as (s' & E & H').
  { intros k y s2 Hy. by apply (Hstep (S k)). }
  exists s'. simpl. by rewrite E1.
Qed.

(** A loop whose turns keep an invariant as long as they return, and one
    of whose turns raises [e] on every state of the invariant, raises [e]
    if no other exception is possible. *)
Lemma para_excecao {A T} (I : T -> Prop) (corpo : A -> T -> res T) e xs : forall s,
  I s ->
  (forall x s, x ∈ xs -> I s -> (exists s', corpo x s = Ret s' /\ I s') \/ corpo x s = Raise e) ->
  (exists x, x ∈ xs /\ forall s, I s -> corpo x s = Raise e) ->
  para xs corpo s = Raise e.
Proof.
  induction xs as [|x xs IH]; intros s Hs Hstep (y & Hy & Hraise).
  { by apply elem_of_nil in Hy. }
  simpl. destruct (Hstep x s) as [(s1 & E1 & H1)|E1]; [left|done| |by rewrite E1].
  rewrite E1. simpl.
  apply elem_of_cons in Hy as [->|Hy].
  { rewrite Hraise in E1; done. }
  apply IH; [done| |by exists y].
  intros z s2 Hz. apply Hstep. by right.
Qed.

(** ** Subscripts *)

Lemma indice_dentro {A} (l : list A) (i : Z) :
  0 <= i < Z.of_nat (length l) -> indice l i = Ret (Z.to_nat i).
Proof.
  intros Hi. unfold indice.
  destruct (Z.leb_spec 0 i), (Z.ltb_spec i (Z.of_nat (length l))); simpl; done || lia.
Qed.

Lemma indice_acima {A} (l : list A) (i : Z) :
  Z.of_nat (length l) <= i -> indice l i = Raise IndexError.
Proof.
  intros Hi. unfold indice.
  destruct (Z.leb_spec 0 i), (Z.ltb_spec i (Z.of_nat (length l))),
    (Z.ltb_spec i 0); simpl; done || lia.
Qed.

Lemma ler_dentro {A} (l : list A) (i : Z) x :
  0 <= i -> l !! Z.to_nat i = Some x -> ler l i = Ret x.
Proof.
  intros Hi Hx. unfold ler. rewrite indice_dentro.
  - simpl. by rewrite Hx.
  - apply lookup_lt_Some in Hx. lia.
Qed.

Lemma ler_acima {A} (l : list A) (i : Z) :
  Z.of_nat (length l) <= i -> ler l i = Raise IndexError.
Proof. intros Hi. unfold ler. by rewrite indice_acima. Qed.

(** ** The table *)

Lemma forma_atualizar W tabela i c v : forma W tabela -> forma W (atualizar tabela i c v).
Proof.
  intros Hf. apply Forall_alter; [done|].
  intros linha _ Hl. by rewrite length_insert.
Qed.

Lemma cel_atualizar_eq W tabela i c v :
  forma W tabela -> (i < length tabela)%nat -> (c < W)%nat ->
  cel (atualizar tabela i c v) i c = v.
Proof.
  intros Hf Hi Hc. unfold cel, atualizar. rewrite list_lookup_alter_eq.
  destruct (lookup_lt_is_Some_2 tabela i Hi) as [linha Hl]. rewrite Hl. simpl.
  rewrite list_lookup_insert_eq; [done|].
  by rewrite (Forall_lookup_1 _ _ _ _ Hf Hl).
Qed.

Lemma cel_atualizar_ne tabela i c v j d :
  i ≠ j \/ c ≠ d -> cel (atualizar tabela i c v) j d = cel tabela j d.
Proof.
  intros Hne. unfold cel, atualizar.
  destruct (decide (i = j)) as [<-|Hij].
  - rewrite list_lookup_alter_eq. destruct (tabela !! i) as [linha|]; [|done].
    simpl. rewrite list_lookup_insert_ne; [done|]. by destruct Hne.
  - by rewrite list_lookup_alter_ne.
Qed.

Lemma ler2_dentro W tabela (i : nat) (c : Z) :
  forma W tabela -> (i < length tabela)%nat -> 0 <= c < Z.of_nat W ->
  ler2 tabela (Z.of_nat i) c = Ret (cel tabela i (Z.to_nat c)).
Proof.
  intros Hf Hi Hc. unfold ler2, cel.
  destruct (lookup_lt_is_Some_2 tabela i Hi) as [linha Hl].
  rewrite (ler_dentro tabela _ linha) by (rewrite ?Nat2Z.id; done || lia).
  simpl. rewrite Hl. simpl.
  pose proof (Forall_lookup_1 _ _ _ _ Hf Hl) as Hlen. simpl in Hlen.
  destruct (lookup_lt_is_Some_2 linha (Z.to_nat c)) as [x Hx]; [lia|].
  rewrite (ler_dentro linha _ x) by (done || lia). by rewrite Hx.
Qed.

Lemma ler2_acima W tabela (i : nat) (c : Z) :
  forma W tabela -> (i < length tabela)%nat -> Z.of_nat W <= c ->
  ler2 tabela (Z.of_nat i) c = Raise IndexError.
Proof.
  intros Hf Hi Hc. unfold ler2.
  destruct (lookup_lt_is_Some_2 tabela i Hi) as [linha Hl].
  rewrite (ler_dentro tabela _ linha) by (rewrite ?Nat2Z.id; done || lia).
  simpl. apply ler_acima.
  pose proof (Forall_lookup_1 _ _ _ _ Hf Hl) as Hlen. simpl in Hlen. lia.
Qed.

Lemma escrever2_dentro W tabela (i : nat) (c v : Z) :
  forma W tabela -> (i < length tabela)%nat -> 0 <= c < Z.of_nat W ->
  escrever2 tabela (Z.of_nat i) c v = Ret (atualizar tabela i (Z.to_nat c) v).
Proof.
  intros Hf Hi Hc. unfold escrever2, atualizar.
  destruct (lookup_lt_is_Some_2 tabela i Hi) as [linha Hl].
  rewrite (ler_dentro tabela _ linha) by (rewrite ?Nat2Z.id; done || lia).
  simpl. pose proof (Forall_lookup_1 _ _ _ _ Hf Hl) as Hlen. simpl in Hlen.
  unfold escrever. rewrite !indice_dentro by lia. simpl.
  rewrite Nat2Z.id. f_equal.
  apply list_eq. intros j. rewrite list_lookup_insert, list_lookup_alter.
  destruct (decide (i = j)) as [<-|Hij].
  - rewrite Hl. simpl. rewrite decide_True; [done|]. split; [done|lia].
  - rewrite decide_False; [done|]. intros [? _]. done.
Qed.

(** ** The forward fill *)

(** When the column [c - custo] is in range, a turn of the inner loop
    reads in range and writes the cell. *)
Lemma preencher_celula_dentro W tabela p (i : nat) (c : Z) :
  forma W tabela -> (S i < length tabela)%nat ->
  (custo p <= c -> 0 <= c - custo p < Z.of_nat W) -> 0 <= c < Z.of_nat W ->
  preencher_celula p (Z.of_nat (S i)) c tabela =
    Ret (atualizar tabela (S i) (Z.to_nat c)
          (if custo p >? c then cel tabela i (Z.to_nat c)
           else Z.max (cel tabela i (Z.to_nat c))
                      (valor p + cel tabela i (Z.to_nat (c - custo p))))).
Proof.
  intros Hf Hi Hp Hc. unfold preencher_celula.
  replace (Z.of_nat (S i) - 1) with (Z.of_nat i) by lia.
  destruct (Z.gtb_spec (custo p) c).
  - rewrite (ler2_dentro W) by (done || lia). simpl.
    by rewrite (escrever2_dentro W) by (done || lia).
  - rewrite !(ler2_dentro W) by (done || lia). simpl.
    by rewrite (escrever2_dentro W) by (done || lia).
Qed.

(** The table recurrence, read on the recursion. *)
Lemma resolver_recorrencia projetos i c p :
  projetos !! i = Some p -> 0 < custo p -> 0 <= c ->
  (resolver projetos (S i) c).1 =
    if custo p >? c then (resolver projetos i c).1
    else Z.max (resolver projetos i c).1 (valor p + (resolver projetos i (c - custo p)).1).
Proof.
  intros Hp Hpos Hc. destruct (decide (c = 0)) as [->|Hne].
  { rewrite !resolver_nao_positivo by done. by destruct (Z.gtb_spec (custo p) 0); [|lia]. }
  rewrite (resolver_S _ _ _ _ Hp) by lia.
  destruct (custo p >? c); [done|].
  destruct (Z.gtb_spec ((resolver projetos i (c - custo p)).1 + valor p)
                       (resolver projetos i c).1); simpl; lia.
Qed.

Lemma tabela_inicial_ok projetos capacidade :
  linhas_ok projetos capacidade 0 (tabela_inicial (Z.of_nat (length projetos)) capacidade).
Proof.
  unfold linhas_ok, tabela_inicial, forma. repeat split.
  - apply Forall_replicate, length_replicate.
  - rewrite length_replicate. lia.
  - intros j d Hj Hd. assert (j = O) as -> by lia. unfold cel.
    rewrite lookup_replicate_2 by lia. simpl. by rewrite lookup_replicate_2.
Qed.

Lemma preencher_linha_ok projetos capacidade (i : nat) tabela :
  custos_positivos projetos -> (i < length projetos)%nat ->
  linhas_ok projetos capacidade i tabela ->
  exists tabela', preencher_linha projetos capacidade (Z.of_nat (S i)) tabela = Ret tabela' /\
    linhas_ok projetos capacidade (S i) tabela'.
Proof.
  intros Hpos Hi (Hf & Hlen & Hcel). unfold preencher_linha.
  destruct (lookup_lt_is_Some_2 projetos i Hi) as [p Hp].
  assert (0 < custo p) as Hcp by (eapply (Forall_lookup_1 _ _ _ _ Hpos Hp)).
  rewrite (ler_dentro projetos _ p) by (rewrite ?Z2Nat.inj_sub, ?Nat2Z.id; simpl; rewrite ?Nat.sub_0_r; done || lia).
  simpl. set (W := Z.to_nat (capacidade + 1)) in *.
  destruct (para_invariante
    (fun k t => forma W t /\ length t = S (length projetos) /\
       (forall j d, (j <= i)%nat -> (d < W)%nat -> cel t j d = (resolver projetos j (Z.of_nat d)).1) /\
       (forall d, (d < k)%nat -> (d < W)%nat -> cel t (S i) d = (resolver projetos (S i) (Z.of_nat d)).1))
    (preencher_celula p (Z.of_nat (S i))) (seqZ 0 (capacidade + 1)) tabela)
    as (tabela' & E & Hf' & Hlen' & Hcel' & Hnova).
  { repeat split; [done..|]. intros d Hd. lia. }
  { intros k x t Hx (Hf1 & Hlen1 & Hcel1 & Hnova1).
    apply lookup_seqZ in Hx as [-> Hk]. rewrite Z.add_0_l.
    rewrite (preencher_celula_dentro W) by (done || lia).
    eexists. split; [done|]. rewrite Nat2Z.id.
    repeat split.
    - by apply forma_atualizar.
    - unfold atualizar. by rewrite length_alter.
    - intros j d Hj Hd. rewrite cel_atualizar_ne by (left; lia). by apply Hcel1.
    - intros d Hd HdW. destruct (decide (d = k)) as [->|Hne].
      + rewrite (cel_atualizar_eq W) by (done || lia).
        rewrite (resolver_recorrencia _ _ _ _ Hp) by lia.
        rewrite !Hcel1 by lia.
        destruct (Z.gtb_spec (custo p) (Z.of_nat k)); [done|].
        by rewrite Z2Nat.id by lia.
      + rewrite cel_atualizar_ne by (right; lia). apply Hnova1; lia. }
  exists tabela'. split; [done|]. repeat split; [done..|].
  intros j d Hj Hd. destruct (decide (j = S i)) as [->|Hne].
  - apply Hnova; [|done]. rewrite length_seqZ. done.
  - apply Hcel'; [lia|done].
Qed.

Lemma preencher_ok projetos capacidade :
  custos_positivos projetos ->
  exists tabela, preencher projetos capacidade = Ret tabela /\
    linhas_ok projetos capacidade (length projetos) tabela.
Proof.
  intros Hpos. unfold preencher.
  destruct (para_invariante (fun k t => linhas_ok projetos capacidade k t)
    (preencher_linha projetos capacidade) (seqZ 1 (Z.of_nat (length projetos)))
    (tabela_inicial (Z.of_nat (length projetos)) capacidade)) as (tabela & E & Hok).
  { apply tabela_inicial_ok. }
  { intros k x t Hx Hk. apply lookup_seqZ in Hx as [-> Hlt].
    replace (1 + Z.of_nat k) with (Z.of_nat (S k)) by lia.
    apply preencher_linha_ok; [done|lia|done]. }
  exists tabela. split; [done|]. by rewrite length_seqZ, Nat2Z.id in Hok.
Qed.

(** ** The backward walk *)

(** The recursion keeps the result without project [i] exactly when the
    value does not change, and takes project [i] exactly when it does. *)
Lemma resolver_igual projetos i c p :
  projetos !! i = Some p ->
  (resolver projetos (S i) c).1 = (resolver projetos i c).1 ->
  resolver projetos (S i) c = resolver projetos i c.
Proof.
  intros Hp. destruct (decide (c <= 0)) as [Hc|Hc].
  { by rewrite !resolver_nao_positivo. }
  rewrite (resolver_S _ _ _ _ Hp) by lia.
  destruct (custo p >? c); [done|].
  destruct (Z.gtb_spec ((resolver projetos i (c - custo p)).1 + valor p)
                       (resolver projetos i c).1); simpl; [lia|done].
Qed.

Lemma resolver_diferente projetos i c p :
  projetos !! i = Some p ->
  (resolver projetos (S i) c).1 ≠ (resolver projetos i c).1 ->
  custo p <= c /\
  (resolver projetos (S i) c).2 = (resolver projetos i (c - custo p)).2 ++ [nome p].
Proof.
  intros Hp. destruct (decide (c <= 0)) as [Hc|Hc].
  { rewrite !resolver_nao_positivo by done. congruence. }
  rewrite (resolver_S _ _ _ _ Hp) by lia.
  destruct (Z.gtb_spec (custo p) c); [congruence|].
  destruct (Z.gtb_spec ((resolver projetos i (c - custo p)).1 + valor p)
                       (resolver projetos i c).1); simpl; [|congruence].
  intros _. split; [lia|done].
Qed.

Lemma reconstruir_ok projetos capacidade tabela :
  custos_positivos projetos -> 0 <= capacidade ->
  linhas_ok projetos capacidade (length projetos) tabela ->
  reconstruir projetos capacidade tabela = Ret (resolver projetos (length projetos) capacidade).
Proof.
  intros Hpos Hcap (Hf & Hlen & Hcel). unfold reconstruir.
  set (n := length projetos) in *. set (W := Z.to_nat (capacidade + 1)) in *.
  assert (HW : Z.of_nat W = capacidade + 1) by (unfold W; lia).
  rewrite (ler2_dentro W) by (done || lia). simpl.
  rewrite Hcel by lia. rewrite Z2Nat.id by done.
  destruct (para_invariante
    (fun k (st : list string * Z) => 0 <= st.2 <= capacidade /\
       (resolver projetos n capacidade).2 = (resolver projetos (n - k) st.2).2 ++ reverse st.1)
    (passo_reconstrucao projetos tabela) (reverse (seqZ 1 (Z.of_nat n))) ([], capacidade))
    as ([itens c] & E & Hc & Hitens).
  { simpl. split; [lia|]. by rewrite Nat.sub_0_r, app_nil_r. }
  { intros k x [itens c] Hx (Hc & Hitens). simpl in Hc, Hitens.
    apply reverse_lookup_Some in Hx as [Hx Hk]. rewrite length_seqZ, Nat2Z.id in Hx, Hk.
    apply lookup_seqZ in Hx as [-> _].
    set (m := (n - S k)%nat) in *.
    replace (n - k)%nat with (S m) in Hitens by lia.
    replace (1 + Z.of_nat m) with (Z.of_nat (S m)) by lia.
    unfold passo_reconstrucao.
    replace (Z.of_nat (S m) - 1) with (Z.of_nat m) by lia.
    rewrite !(ler2_dentro W) by (done || lia). simpl.
    rewrite !Hcel by lia. rewrite Z2Nat.id by lia.
    destruct (lookup_lt_is_Some_2 projetos m) as [p Hp]; [lia|].
    destruct (Z.eqb_spec (resolver projetos (S m) c).1 (resolver projetos m c).1) as [Heq|Hne].
    - eexists. split; [done|]. simpl. split; [done|].
      replace (n - S k)%nat with m by lia.
      by rewrite <- (resolver_igual _ _ _ _ Hp Heq).
    - rewrite (ler_dentro projetos _ p) by (rewrite ?Nat2Z.id; done || lia). simpl.
      destruct (resolver_diferente _ _ _ _ Hp Hne) as [Hfit Hl].
      assert (0 < custo p) by (eapply (Forall_lookup_1 _ _ _ _ Hpos Hp)).
      eexists. split; [done|]. simpl. split; [lia|].
      replace (n - S k)%nat with m by lia.
      by rewrite Hitens, Hl, reverse_app, <- app_assoc. }
  rewrite E. simpl. simpl in Hitens.
  rewrite length_reverse, length_seqZ, Nat2Z.id, Nat.sub_diag in Hitens.
  simpl in Hitens. rewrite <- Hitens.
  by destruct (resolver projetos n capacidade).
Qed.

(** On a valid input the table solver returns exactly what the recursion
    returns: the same value and the same names in the same order. *)
Lemma mochila_pd_recursiva projetos capacidade :
  custos_positivos projetos -> 0 <= capacidade ->
  mochila_pd projetos capacidade = Ret (mochila_recursiva projetos capacidade).
Proof.
  intros Hpos Hcap. unfold mochila_pd, mochila_recursiva.
  destruct (preencher_ok projetos capacidade Hpos) as (tabela & E & Hok).
  rewrite E. simpl. by apply reconstruir_ok.
Qed.

(** ** The greedy solver *)

Section GulosaProps.
Context {K : Type} (divisao : Z -> Z -> K) (menor : K -> K -> bool).

Lemma transborda_false a b :
  transborda a b = false <-> Z.abs a < limite_float * Z.abs b.
Proof. unfold transborda. apply Z.leb_gt. Qed.

Lemma transborda_true a b :
  transborda a b = true <-> limite_float * Z.abs b <= Z.abs a.
Proof. unfold transborda. apply Z.leb_le. Qed.

Lemma no_alcance_nao_zero a b : Z.abs a < limite_float * Z.abs b -> b ≠ 0.
Proof. intros H ->. rewrite Z.abs_0, Z.mul_0_r in H. lia. Qed.

Lemma chave_no_alcance p :
  Z.abs (valor p) < limite_float * Z.abs (custo p) ->
  chave divisao p = Ret (divisao (valor p) (custo p)).
Proof.
  intros H. unfold chave.
  destruct (Z.eqb_spec (custo p) 0) as [Hz|_]; [by apply no_alcance_nao_zero in H|].
  by rewrite (proj2 (transborda_false _ _) H).
Qed.

Lemma decorar_ok ps :
  razoes_no_alcance ps ->
  exists l, decorar divisao ps = Ret l /\ l.*2 = ps.
Proof.
  induction 1 as [|p ps Hp _ (l & E & Hl)]; [by exists []|].
  cbn [decorar]. rewrite (chave_no_alcance p Hp). simpl. rewrite E. simpl.
  eexists. split; [done|]. rewrite fmap_cons. by f_equal.
Qed.

(** The keys are computed in input order: the first project whose key
    cannot be computed decides the exception. *)
Lemma decorar_falha antes p depois e :
  razoes_no_alcance antes -> chave divisao p = Raise e ->
  decorar divisao (antes ++ p :: depois) = Raise e.
Proof.
  induction 1 as [|q antes Hq _ IH]; intros Hp; simpl.
  - by rewrite Hp.
  - rewrite (chave_no_alcance q Hq). simpl. by rewrite IH.
Qed.

Lemma chave_zero p : custo p = 0 -> chave divisao p = Raise ZeroDivisionError.
Proof. intros H. unfold chave. by destruct (Z.eqb_spec (custo p) 0). Qed.

Lemma chave_transborda p :
  custo p ≠ 0 -> limite_float * Z.abs (custo p) <= Z.abs (valor p) ->
  chave divisao p = Raise OverflowError.
Proof.
  intros Hnz H. unfold chave. destruct (Z.eqb_spec (custo p) 0); [done|].
  by rewrite (proj2 (transborda_true _ _) H).
Qed.

Lemma inserir_perm x l : inserir menor x l ≡ₚ x :: l.
Proof.
  induction l as [|y l IH]; simpl; [done|].
  destruct (menor x.1 y.1); [|done]. rewrite IH. apply Permutation_swap.
Qed.

Lemma ordenar_perm l : ordenar menor l ≡ₚ l.
Proof.
  induction l as [|x l IH]; simpl; [done|].
  unfold ordenar in *. simpl. by rewrite inserir_perm, IH.
Qed.

(** The loop takes a selection of the projects it goes through, and
    never more than the capacity left. *)
Lemma guloso_selecao xs : forall r v esc,
  exists sel, sel `sublist_of` xs /\
    foldl passo_guloso (r, v, esc) xs =
      (r - soma_custo sel, v + soma_valor sel, esc ++ (nome <$> sel)) /\
    (0 <= r -> soma_custo sel <= r).
Proof.
  induction xs as [|p xs IH]; intros r v esc.
  { exists []. simpl. rewrite app_nil_r.
    change (soma_custo []) with 0. change (soma_valor []) with 0.
    repeat split; [done| |done]. do 2 f_equal; lia. }
  simpl. destruct (Z.leb_spec (custo p) r).
  - destruct (IH (r - custo p) (v + valor p) (esc ++ [nome p])) as (sel & Hsub & E & Hfit).
    exists (p :: sel). split; [by apply sublist_skip|]. split.
    + rewrite E. simpl. rewrite <- app_assoc. simpl.
      change (soma_custo (p :: sel)) with (custo p + soma_custo sel).
      change (soma_valor (p :: sel)) with (valor p + soma_valor sel).
      do 2 f_equal; lia.
    + intros Hr. change (soma_custo (p :: sel)) with (custo p + soma_custo sel). lia.
  - destruct (IH r v esc) as (sel & Hsub & E & Hfit).
    exists sel. split; [by apply sublist_cons|]. done.
Qed.

(** With everything fitting, the loop takes every project. *)
Lemma guloso_tudo xs : forall r v esc,
  custos_positivos xs -> soma_custo xs <= r ->
  foldl passo_guloso (r, v, esc) xs =
    (r - soma_custo xs, v + soma_valor xs, esc ++ (nome <$> xs)).
Proof.
  induction xs as [|p xs IH]; intros r v esc Hpos Hfit.
  { simpl. rewrite app_nil_r.
    change (soma_custo []) with 0. change (soma_valor []) with 0.
    do 2 f_equal; lia. }
  apply Forall_cons in Hpos as [Hp Hpos].
  pose proof (soma_custo_nao_negativa xs Hpos).
  change (soma_custo (p :: xs)) with (custo p + soma_custo xs) in *.
  change (soma_valor (p :: xs)) with (valor p + soma_valor xs).
  simpl. destruct (Z.leb_spec (custo p) r); [|lia].
  rewrite IH by (done || lia). rewrite <- app_assoc. simpl.
  do 2 f_equal; lia.
Qed.

(** With no capacity at all, the loop takes nothing. *)
Lemma guloso_nada xs : forall r v esc,
  custos_positivos xs -> r <= 0 ->
  foldl passo_guloso (r, v, esc) xs = (r, v, esc).
Proof.
  induction xs as [|p xs IH]; intros r v esc Hpos Hr; [done|].
  apply Forall_cons in Hpos as [Hp Hpos].
  simpl. destruct (Z.leb_spec (custo p) r); [lia|]. by apply IH.
Qed.

(** When every key can be computed, the greedy solver returns, and what
    it returns is a selection of the projects. *)
Lemma mochila_gulosa_selecao projetos capacidade :
  razoes_no_alcance projetos ->
  exists sel, sel ⊆+ projetos /\
    mochila_gulosa divisao menor projetos capacidade = Ret (soma_valor sel, nome <$> sel) /\
    (0 <= capacidade -> soma_custo sel <= capacidade).
Proof.
  intros Hra. unfold mochila_gulosa.
  destruct (decorar_ok projetos Hra) as (l & E & Hl).
  rewrite E. simpl.
  destruct (guloso_selecao (ordenar menor l).*2 capacidade 0 []) as (sel & Hsub & E' & Hfit).
  rewrite E'. exists sel. split; [|done].
  rewrite <- Hl, <- (ordenar_perm l) at 1. by apply sublist_submseteq.
Qed.
End GulosaProps.

(** ** The fill on a negative cost *)

(** A turn of the inner loop either writes its cell or raises
    [IndexError]; it raises when the column [c - custo] is past the end of
    the row. *)
Lemma preencher_celula_acima W tabela p (i : nat) (c : Z) :
  forma W tabela -> (S i < length tabela)%nat -> 0 <= c < Z.of_nat W ->
  custo p <= c -> Z.of_nat W <= c - custo p ->
  preencher_celula p (Z.of_nat (S i)) c tabela = Raise IndexError.
Proof.
  intros Hf Hi Hc Hle Hfora. unfold preencher_celula.
  replace (Z.of_nat (S i) - 1) with (Z.of_nat i) by lia.
  destruct (Z.gtb_spec (custo p) c); [lia|].
  rewrite (ler2_dentro W tabela i c) by (done || lia). simpl.
  by rewrite (ler2_acima W) by (done || lia).
Qed.

Lemma preencher_celula_casos W tabela p (i : nat) (c : Z) :
  forma W tabela -> (S i < length tabela)%nat -> 0 <= c < Z.of_nat W ->
  (exists tabela', preencher_celula p (Z.of_nat (S i)) c tabela = Ret tabela' /\
     forma W tabela' /\ length tabela' = length tabela) \/
  preencher_celula p (Z.of_nat (S i)) c tabela = Raise IndexError.
Proof.
  intros Hf Hi Hc.
  destruct (decide (custo p <= c /\ Z.of_nat W <= c - custo p)) as [[? ?]|Hin].
  { right. by apply (preencher_celula_acima W). }
  left. rewrite (preencher_celula_dentro W) by (done || lia).
  eexists. split; [done|]. split; [by apply forma_atualizar|].
  unfold atualizar. by rewrite length_alter.
Qed.

Lemma preencher_linha_casos projetos capacidade (i : nat) tabela :
  (i < length projetos)%nat ->
  forma (Z.to_nat (capacidade + 1)) tabela -> length tabela = S (length projetos) ->
  (exists tabela', preencher_linha projetos capacidade (Z.of_nat (S i)) tabela = Ret tabela' /\
     forma (Z.to_nat (capacidade + 1)) tabela' /\ length tabela' = S (length projetos)) \/
  preencher_linha projetos capacidade (Z.of_nat (S i)) tabela = Raise IndexError.
Proof.
  intros Hi Hf Hlen. unfold preencher_linha.
  destruct (lookup_lt_is_Some_2 projetos i Hi) as [p Hp].
  replace (Z.of_nat (S i) - 1) with (Z.of_nat i) by lia.
  rewrite (ler_dentro projetos _ p) by (rewrite ?Nat2Z.id; done || lia). simpl.
  set (W := Z.to_nat (capacidade + 1)) in *.
  set (I := fun t : list (list Z) => forma W t /\ length t = S (length projetos)).
  assert (Hcasos : forall xs t, (forall x, x ∈ xs -> 0 <= x < Z.of_nat W) -> I t ->
    (exists t', para xs (preencher_celula p (Z.of_nat (S i))) t = Ret t' /\ I t') \/
    para xs (preencher_celula p (Z.of_nat (S i))) t = Raise IndexError).
  { induction xs as [|x xs IH]; intros t Hxs Ht; [left; by exists t|].
    simpl. destruct Ht as [Hf1 Hlen1].
    destruct (preencher_celula_casos W t p i x) as [(t1 & E1 & Hf2 & Hlen2)|E1];
      [done|lia|apply Hxs; by left| |right; by rewrite E1].
    rewrite E1. simpl. apply IH; [|split; [done|lia]].
    intros y Hy. apply Hxs. by right. }
  apply Hcasos; [|done].
  intros x Hx. apply elem_of_seqZ in Hx. lia.
Qed.

Lemma preencher_linha_negativo projetos capacidade (i : nat) tabela p :
  projetos !! i = Some p -> custo p < 0 -> 0 <= capacidade ->
  forma (Z.to_nat (capacidade + 1)) tabela -> length tabela = S (length projetos) ->
  preencher_linha projetos capacidade (Z.of_nat (S i)) tabela = Raise IndexError.
Proof.
  intros Hp Hneg Hcap Hf Hlen. unfold preencher_linha.
  pose proof (lookup_lt_Some _ _ _ Hp) as Hi.
  replace (Z.of_nat (S i) - 1) with (Z.of_nat i) by lia.
  rewrite (ler_dentro projetos _ p) by (rewrite ?Nat2Z.id; done || lia). simpl.
  set (W := Z.to_nat (capacidade + 1)) in *.
  apply (para_excecao (fun t => forma W t /\ length t = S (length projetos))); [done|..].
  - intros x t Hx [Hf1 Hlen1]. apply elem_of_seqZ in Hx.
    destruct (preencher_celula_casos W t p i x) as [(t1 & E1 & Hf2 & Hlen2)|E1];
      [done|lia|lia| |by right].
    left. exists t1. split; [done|]. split; [done|lia].
  - exists capacidade. split; [apply elem_of_seqZ; lia|].
    intros t [Hf1 Hlen1]. apply (preencher_celula_acima W); (done || lia).
Qed.

(** A negative cost makes the fill read past the end of a row. *)
Lemma preencher_negativo projetos capacidade :
  Exists (fun p => custo p < 0) projetos -> 0 <= capacidade ->
  preencher projetos capacidade = Raise IndexError.
Proof.
  intros Hex Hcap. unfold preencher.
  apply Exists_exists in Hex as (p & Hin & Hneg).
  apply list_elem_of_lookup in Hin as [i Hp].
  pose proof (lookup_lt_Some _ _ _ Hp) as Hi.
  destruct (tabela_inicial_ok projetos capacidade) as (Hf0 & Hlen0 & _).
  apply (para_excecao (fun t => forma (Z.to_nat (capacidade + 1)) t /\
                                 length t = S (length projetos))); [done|..].
  - intros x t Hx [Hf Hlen]. apply elem_of_seqZ in Hx.
    replace x with (Z.of_nat (S (Z.to_nat (x - 1)))) by lia.
    apply preencher_linha_casos; (done || lia).
  - exists (Z.of_nat (S i)). split; [apply elem_of_seqZ; lia|].
    intros t [Hf Hlen]. by apply (preencher_linha_negativo _ _ _ _ p).
Qed.

Lemma mochila_pd_negativo projetos capacidade :
  Exists (fun p => custo p < 0) projetos -> 0 <= capacidade ->
  mochila_pd projetos capacidade = Raise IndexError.
Proof. intros Hex Hcap. unfold mochila_pd. by rewrite preencher_negativo. Qed.

(** ** Everything fits *)

(** When the first [k] projects fit together, the recursion takes each of
    them that has a positive value, and leaves out those worth nothing. *)
Lemma resolver_tudo projetos k : forall c,
  custos_positivos projetos -> valores_nao_negativos projetos ->
  (k <= length projetos)%nat ->
  soma_custo (take k projetos) <= c ->
  resolver projetos k c =
    (soma_valor (take k projetos), nome <$> filter (fun p => 0 < valor p) (take k projetos)).
Proof.
  induction k as [|i IH]; intros c Hpos Hval Hlen Hfit; [done|].
  destruct (lookup_lt_is_Some_2 projetos i) as [p Hp]; [lia|].
  assert (0 < custo p) as Hcp by (eapply (Forall_lookup_1 _ _ _ _ Hpos Hp)).
  assert (0 <= valor p) as Hvp by (eapply (Forall_lookup_1 _ _ _ _ Hval Hp)).
  rewrite (take_S_r _ _ _ Hp) in *.
  rewrite soma_custo_app in Hfit. change (soma_custo [p]) with (custo p + 0) in Hfit.
  assert (0 <= soma_custo (take i projetos)) as Hnn.
  { apply soma_custo_nao_negativa.
    eapply custos_positivos_sublist; [apply sublist_take|done]. }
  rewrite (resolver_S _ _ _ _ Hp) by lia.
  rewrite !IH by (done || lia). simpl.
  rewrite soma_valor_app, filter_app, fmap_app, filter_cons, filter_nil.
  change (soma_valor [p]) with (valor p + 0).
  destruct (Z.gtb_spec (custo p) c); [lia|].
  destruct (Z.gtb_spec (soma_valor (take i projetos) + valor p) (soma_valor (take i projetos)));
    destruct (decide (0 < valor p)); try lia.
  - f_equal. lia.
  - simpl. rewrite app_nil_r. f_equal. lia.
Qed.

Lemma mochila_recursiva_tudo projetos capacidade :
  custos_positivos projetos -> valores_nao_negativos projetos ->
  soma_custo projetos <= capacidade ->
  mochila_recursiva projetos capacidade =
    (soma_valor projetos, nome <$> filter (fun p => 0 < valor p) projetos).
Proof.
  intros Hpos Hval Hfit. unfold mochila_recursiva.
  rewrite resolver_tudo by (rewrite ?take_ge; done || lia).
  by rewrite take_ge.
Qed.

(** ** Choosing by name *)

Lemma filter_sublist_unico (P : Projeto -> Prop) `{forall x, Decision (P x)} l1 l2 :
  l1 `sublist_of` l2 -> NoDup l2 ->
  (forall q, q ∈ l1 -> P q) -> (forall q, q ∈ l2 -> P q -> q ∈ l1) ->
  filter P l2 = l1.
Proof.
  induction 1 as [|x l1 l2 Hsub IH|x l1 l2 Hsub IH]; intros Hnd Hin Hout.
  - done.
  - apply NoDup_cons in Hnd as [Hx Hnd].
    rewrite filter_cons_True by (apply Hin; left). f_equal.
    apply IH; [done| |].
    + intros q Hq. apply Hin. by right.
    + intros q Hq HP. pose proof (Hout q ltac:(by right) HP) as Hq1.
      apply elem_of_cons in Hq1 as [->|Hq1]; [by destruct Hx|done].
  - apply NoDup_cons in Hnd as [Hx Hnd].
    assert (forall q, q ∈ l1 -> q ∈ l2) as Hsubel.
    { intros q Hq. eapply elem_of_submseteq; [done|]. by apply sublist_submseteq. }
    rewrite filter_cons_False.
    + apply IH; [done..|]. intros q Hq HP. apply Hout; [by right|done].
    + intros HP. apply Hx, Hsubel, Hout; [left|done].
Qed.

Lemma nome_injetivo (l : list Projeto) x y :
  NoDup (nome <$> l) -> x ∈ l -> y ∈ l -> nome x = nome y -> x = y.
Proof.
  induction l as [|z l IH]; intros Hnd Hx Hy Heq.
  { by apply elem_of_nil in Hx. }
  rewrite fmap_cons in Hnd. apply NoDup_cons in Hnd as [Hz Hnd].
  apply elem_of_cons in Hx as [->|Hx]; apply elem_of_cons in Hy as [->|Hy].
  - done.
  - destruct Hz. rewrite Heq. by apply list_elem_of_fmap_2.
  - destruct Hz. rewrite <- Heq. by apply list_elem_of_fmap_2.
  - by apply IH.
Qed.

(** With distinct names, a selection is the projects that bear its
    names. *)
Lemma itens_com_nome_sublist projetos sel :
  NoDup (nome <$> projetos) -> sel `sublist_of` projetos ->
  itens_com_nome projetos (nome <$> sel) = sel.
Proof.
  intros Hnd Hsub. apply filter_sublist_unico; [done|by eapply NoDup_fmap_1| |].
  - intros q Hq. by apply list_elem_of_fmap_2.
  - intros q Hq (q' & Heq & Hq')%list_elem_of_fmap.
    assert (q' ∈ projetos) as Hq'p.
    { eapply elem_of_submseteq; [done|]. by apply sublist_submseteq. }
    by rewrite (nome_injetivo projetos q q' Hnd Hq Hq'p Heq).
Qed.

Lemma itens_com_nome_submseteq projetos sel :
  NoDup (nome <$> projetos) -> sel ⊆+ projetos ->
  itens_com_nome projetos (nome <$> sel) ≡ₚ sel.
Proof.
  intros Hnd (l2 & Hperm & Hsub)%submseteq_sublist_r.
  rewrite Hperm at 2. rewrite <- (itens_com_nome_sublist projetos l2 Hnd Hsub).
  unfold itens_com_nome. erewrite list_filter_iff; [done|].
  intros q. simpl. by rewrite Hperm.
Qed.

Lemma mochila_recursiva_selecao projetos capacidade :
  0 <= capacidade ->
  exists sel, sel `sublist_of` projetos /\
    nome <$> sel = (mochila_recursiva projetos capacidade).2 /\
    soma_valor sel = (mochila_recursiva projetos capacidade).1 /\
    soma_custo sel <= capacidade.
Proof.
  intros Hcap. unfold mochila_recursiva.
  destruct (resolver_selecao projetos (length projetos) capacidade Hcap) as (sel & Hsub & H).
  exists sel. split; [|done]. by rewrite take_ge in Hsub.
Qed.

Lemma mochila_recursiva_otimo projetos capacidade sel :
  custos_positivos projetos -> sel ⊆+ projetos -> soma_custo sel <= capacidade ->
  soma_valor sel <= (mochila_recursiva projetos capacidade).1.
Proof.
  intros Hpos (l2 & Hperm & Hsub)%submseteq_sublist_r Hfit. unfold mochila_recursiva.
  rewrite (soma_valor_perm _ _ Hperm). rewrite (soma_custo_perm _ _ Hperm) in Hfit.
  apply resolver_otimo; [done..| |done]. by rewrite take_ge.
Qed.

(** * The claims *)

(** C1, as the code has it.  On every list of projects with positive
    costs and every capacity that is not negative, the pure recursion, the
    memoized recursion and the table solver return one and the same total
    value; when moreover every ratio value/cost is within the range of a
    double, the greedy solver returns a value that is at most that one.
    (The sign of the values plays no part.) *)
Theorem valor_otimo_comum {K} (divisao : Z -> Z -> K) (menor : K -> K -> bool)
    projetos capacidade :
  custos_positivos projetos -> 0 <= capacidade ->
  exists v,
    (mochila_recursiva projetos capacidade).1 = v /\
    (mochila_memo projetos capacidade).1 = v /\
    (exists itens, mochila_pd projetos capacidade = Ret (v, itens)) /\
    (razoes_no_alcance projetos ->
       exists g itens, mochila_gulosa divisao menor projetos capacidade = Ret (g, itens) /\
         g <= v).
Proof.
  intros Hpos Hcap. exists (mochila_recursiva projetos capacidade).1.
  split; [done|]. split; [by rewrite mochila_memo_recursiva|]. split.
  - exists (mochila_recursiva projetos capacidade).2.
    rewrite mochila_pd_recursiva by done. by destruct (mochila_recursiva _ _).
  - intros Hra.
    destruct (mochila_gulosa_selecao divisao menor projetos capacidade Hra)
      as (sel & Hsub & E & Hfit).
    exists (soma_valor sel), (nome <$> sel). split; [done|].
    apply mochila_recursiva_otimo; auto.
Qed.

Lemma valor_otimo_comum_witness :
  custos_positivos exemplo_enunciado.1 /\ 0 <= exemplo_enunciado.2 /\
  razoes_no_alcance exemplo_enunciado.1 /\
  exists v,
    (mochila_recursiva exemplo_enunciado.1 exemplo_enunciado.2).1 = v /\
    (mochila_memo exemplo_enunciado.1 exemplo_enunciado.2).1 = v /\
    (exists itens, mochila_pd exemplo_enunciado.1 exemplo_enunciado.2 = Ret (v, itens)) /\
    (exists g itens,
       mochila_gulosa razao_exata razao_menor exemplo_enunciado.1 exemplo_enunciado.2
         = Ret (g, itens) /\ g <= v).
Proof.
  assert (H1 : custos_positivos exemplo_enunciado.1) by (repeat constructor).
  assert (H2 : 0 <= exemplo_enunciado.2) by (simpl; lia).
  assert (H0 : razoes_no_alcance exemplo_enunciado.1) by (repeat constructor).
  split; [exact H1|]. split; [exact H2|]. split; [exact H0|].
  destruct (valor_otimo_comum razao_exata razao_menor _ _ H1 H2) as (v & Hr & Hm & Hp & Hg).
  exists v. exact (conj Hr (conj Hm (conj Hp (Hg H0)))).
Defined.

(** C1 as stated fails: the single project of value 10^400 and cost 1,
    with capacity 1, is a valid input on which the greedy solver raises
    [OverflowError] computing its sort key, and returns no value. *)
Lemma gulosa_transborda_sem_valor :
  custos_positivos [projeto_enorme] /\ valores_nao_negativos [projeto_enorme] /\ 0 <= 1 /\
  mochila_gulosa razao_exata razao_menor [projeto_enorme] 1 = Raise OverflowError /\
  ~ (exists g itens,
       mochila_gulosa razao_exata razao_menor [projeto_enorme] 1 = Ret (g, itens) /\
       g <= (mochila_recursiva [projeto_enorme] 1).1).
Proof.
  assert (E : mochila_gulosa razao_exata razao_menor [projeto_enorme] 1
                = Raise OverflowError) by (vm_compute; reflexivity).
  split; [repeat constructor|]. split; [repeat constructor; discriminate|].
  split; [lia|]. split; [exact E|].
  intros (g & itens & Hg & _). rewrite E in Hg. discriminate Hg.
Qed.

(** C2, as the code has it.  On the data of [exemplo_enunciado] (A 12/4,
    B 10/3, C 7/2, D 4/3, capacity 10) the pure recursion, the memoized
    recursion and the table solver each return the total value 29, with
    the projects A, B and C (cost 9). *)
Theorem exemplo_enunciado_29 :
  mochila_recursiva exemplo_enunciado.1 exemplo_enunciado.2 = (29, ["A"; "B"; "C"]) /\
  mochila_memo exemplo_enunciado.1 exemplo_enunciado.2 = (29, ["A"; "B"; "C"]) /\
  mochila_pd exemplo_enunciado.1 exemplo_enunciado.2 = Ret (29, ["A"; "B"; "C"]).
Proof. repeat split; vm_compute; reflexivity. Qed.

(** C2 as stated fails: none of the three solvers returns 23 on the data
    of [exemplo_enunciado]. *)
Lemma exemplo_enunciado_nao_23 :
  ~ ((mochila_recursiva exemplo_enunciado.1 exemplo_enunciado.2).1 = 23 /\
     (mochila_memo exemplo_enunciado.1 exemplo_enunciado.2).1 = 23 /\
     exists itens, mochila_pd exemplo_enunciado.1 exemplo_enunciado.2 = Ret (23, itens)).
Proof. intros [H _]. vm_compute in H. discriminate H. Qed.

(** C3. The memoized solver returns exactly what the pure recursion
    returns, the same total value and the same names in the same order,
    on every input. *)
Theorem memo_identico_recursiva projetos capacidade :
  (mochila_memo projetos capacidade).1 = (mochila_recursiva projetos capacidade).1 /\
  (mochila_memo projetos capacidade).2 = (mochila_recursiva projetos capacidade).2.
Proof. by rewrite mochila_memo_recursiva. Qed.

(** C4, as the code has it.  On every input with positive costs and a
    capacity that is not negative the table solver
    returns the same total value and the same list of names, in the same
    order, as the pure recursion: the walk back takes project [i] when the
    two rows differ, which is when the recursion finds a strictly greater
    value with it. *)
Theorem pd_identico_recursiva projetos capacidade :
  custos_positivos projetos -> 0 <= capacidade ->
  mochila_pd projetos capacidade =
    Ret ((mochila_recursiva projetos capacidade).1, (mochila_recursiva projetos capacidade).2).
Proof.
  intros Hpos Hcap. rewrite mochila_pd_recursiva by done.
  by destruct (mochila_recursiva _ _).
Qed.

Lemma pd_identico_recursiva_witness :
  custos_positivos exemplo_enunciado.1 /\ 0 <= exemplo_enunciado.2 /\
  mochila_pd exemplo_enunciado.1 exemplo_enunciado.2 =
    Ret ((mochila_recursiva exemplo_enunciado.1 exemplo_enunciado.2).1,
         (mochila_recursiva exemplo_enunciado.1 exemplo_enunciado.2).2).
Proof.
  assert (H1 : custos_positivos exemplo_enunciado.1) by (repeat constructor).
  assert (H2 : 0 <= exemplo_enunciado.2) by (simpl; lia).
  repeat (split; [assumption|]).
  exact (pd_identico_recursiva _ _ H1 H2).
Defined.

(** C4 as stated fails: there is no valid input on which the table solver
    returns the value of the recursion with another list of names. *)
Lemma pd_lista_nunca_difere :
  ~ exists projetos capacidade,
      custos_positivos projetos /\ valores_nao_negativos projetos /\ 0 <= capacidade /\
      exists v itens, mochila_pd projetos capacidade = Ret (v, itens) /\
        v = (mochila_recursiva projetos capacidade).1 /\
        itens ≠ (mochila_recursiva projetos capacidade).2.
Proof.
  intros (projetos & capacidade & Hpos & _ & Hcap & v & itens & E & _ & Hne).
  rewrite mochila_pd_recursiva in E by done.
  apply Hne. injection E as E. by rewrite E.
Qed.

(** C5, as the code has it.  No solver checks the costs or names an
    offending project.  The greedy solver computes the ratios in input
    order: it raises [ZeroDivisionError] when the first project whose
    ratio cannot be computed has cost zero, [OverflowError] when the ratio
    of that project is beyond the range of a double, and returns when
    every ratio can be computed; the table solver raises [IndexError] when
    some cost is negative and the capacity is not; the pure and the
    memoized recursion cannot fail and return the same result. *)
Theorem custo_invalido_sem_validacao {K} (divisao : Z -> Z -> K) (menor : K -> K -> bool)
    projetos capacidade :
  (forall antes p depois, projetos = antes ++ p :: depois ->
     razoes_no_alcance antes -> custo p = 0 ->
     mochila_gulosa divisao menor projetos capacidade = Raise ZeroDivisionError) /\
  (forall antes p depois, projetos = antes ++ p :: depois ->
     razoes_no_alcance antes -> custo p ≠ 0 ->
     limite_float * Z.abs (custo p) <= Z.abs (valor p) ->
     mochila_gulosa divisao menor projetos capacidade = Raise OverflowError) /\
  (razoes_no_alcance projetos ->
     exists r, mochila_gulosa divisao menor projetos capacidade = Ret r) /\
  (Exists (fun p => custo p < 0) projetos -> 0 <= capacidade ->
     mochila_pd projetos capacidade = Raise IndexError) /\
  mochila_memo projetos capacidade = mochila_recursiva projetos capacidade.
Proof.
  split; [|split; [|split; [|split]]].
  - intros antes p depois -> Hra Hz. unfold mochila_gulosa.
    by rewrite (decorar_falha divisao antes p depois ZeroDivisionError Hra
                  (chave_zero divisao p Hz)).
  - intros antes p depois -> Hra Hnz Hov. unfold mochila_gulosa.
    by rewrite (decorar_falha divisao antes p depois OverflowError Hra
                  (chave_transborda divisao p Hnz Hov)).
  - intros Hra. unfold mochila_gulosa.
    destruct (decorar_ok divisao projetos Hra) as (l & E & _). rewrite E. simpl.
    destruct (foldl passo_guloso _ _) as [[? valor_total] escolhidos]. by eexists.
  - apply mochila_pd_negativo.
  - apply mochila_memo_recursiva.
Qed.

Lemma custo_invalido_sem_validacao_witness :
  mochila_gulosa razao_exata razao_menor [MkProjeto "A" 5 1; MkProjeto "B" 5 0] 1
    = Raise ZeroDivisionError /\
  mochila_gulosa razao_exata razao_menor [projeto_enorme; MkProjeto "B" 5 0] 1
    = Raise OverflowError /\
  razoes_no_alcance [MkProjeto "A" 5 (-1)] /\
  (exists r, mochila_gulosa razao_exata razao_menor [MkProjeto "A" 5 (-1)] 3 = Ret r) /\
  Exists (fun p => custo p < 0) [MkProjeto "A" 5 (-1)] /\ 0 <= 3 /\
  mochila_pd [MkProjeto "A" 5 (-1)] 3 = Raise IndexError.
Proof.
  assert (H1 : razoes_no_alcance [MkProjeto "A" 5 1]) by (repeat constructor).
  assert (H2 : razoes_no_alcance [MkProjeto "A" 5 (-1)]) by (repeat constructor).
  assert (H3 : Exists (fun p => custo p < 0) [MkProjeto "A" 5 (-1)])
    by (constructor; reflexivity).
  assert (H4 : 0 <= 3) by lia.
  assert (H5 : custo projeto_enorme ≠ 0) by discriminate.
  assert (H7 : razoes_no_alcance []) by constructor.
  assert (H6 : limite_float * Z.abs (custo projeto_enorme) <= Z.abs (valor projeto_enorme))
    by (vm_compute; discriminate).
  split.
  { exact (proj1 (custo_invalido_sem_validacao razao_exata razao_menor
                    [MkProjeto "A" 5 1; MkProjeto "B" 5 0] 1)
             [MkProjeto "A" 5 1] (MkProjeto "B" 5 0) [] eq_refl H1 eq_refl). }
  split.
  { exact (proj1 (proj2 (custo_invalido_sem_validacao razao_exata razao_menor
                           [projeto_enorme; MkProjeto "B" 5 0] 1))
             [] projeto_enorme [MkProjeto "B" 5 0] eq_refl H7 H5 H6). }
  split; [exact H2|].
  split; [exact (proj1 (proj2 (proj2
            (custo_invalido_sem_validacao razao_exata razao_menor _ 3))) H2)|].
  split; [exact H3|]. split; [exact H4|].
  exact (proj1 (proj2 (proj2 (proj2
           (custo_invalido_sem_validacao razao_exata razao_menor _ 3)))) H3 H4).
Defined.

(** C5 as stated fails: with the single project A of value 5 and cost 0
    and capacity 1, the two recursions and the table solver return a
    result instead of rejecting the input, and the greedy solver does
    divide by zero. *)
Lemma custo_zero_nao_rejeitado :
  Exists (fun p => custo p <= 0) [MkProjeto "A" 5 0] /\
  mochila_recursiva [MkProjeto "A" 5 0] 1 = (5, ["A"]) /\
  mochila_memo [MkProjeto "A" 5 0] 1 = (5, ["A"]) /\
  mochila_pd [MkProjeto "A" 5 0] 1 = Ret (5, ["A"]) /\
  mochila_gulosa razao_exata razao_menor [MkProjeto "A" 5 0] 1 = Raise ZeroDivisionError.
Proof.
  split; [constructor; simpl; lia|].
  repeat split; vm_compute; reflexivity.
Qed.

Lemma escolha_viavel_selecao projetos capacidade sel :
  sel ⊆+ projetos -> soma_custo sel <= capacidade ->
  escolha_viavel projetos capacidade (soma_valor sel, nome <$> sel).
Proof.
  intros Hsub Hfit. split; [by exists sel|].
  intros Hnd. simpl.
  by rewrite (soma_custo_perm _ _ (itens_com_nome_submseteq _ _ Hnd Hsub)).
Qed.

Lemma valor_coerente_selecao projetos sel :
  sel ⊆+ projetos -> valor_coerente projetos (soma_valor sel, nome <$> sel).
Proof.
  intros Hsub. split; [by exists sel|].
  intros Hnd. simpl.
  by rewrite (soma_valor_perm _ _ (itens_com_nome_submseteq _ _ Hnd Hsub)).
Qed.

Lemma mochila_recursiva_forma projetos capacidade :
  0 <= capacidade ->
  exists sel, sel `sublist_of` projetos /\ soma_custo sel <= capacidade /\
    mochila_recursiva projetos capacidade = (soma_valor sel, nome <$> sel).
Proof.
  intros Hcap.
  destruct (mochila_recursiva_selecao projetos capacidade Hcap) as (sel & Hsub & Hn & Hv & Hfit).
  exists sel. split; [done|]. split; [done|].
  rewrite Hn, Hv. by destruct (mochila_recursiva _ _).
Qed.

(** C6, as the code has it.  On every list of projects with positive
    costs and every capacity that is not negative, the two recursions and
    the table solver each return the names of a selection of the projects
    whose costs add up to at most the capacity; so does the greedy solver
    when every ratio value/cost is within the range of a double. *)
Theorem todos_viaveis {K} (divisao : Z -> Z -> K) (menor : K -> K -> bool)
    projetos capacidade :
  custos_positivos projetos -> 0 <= capacidade ->
  (razoes_no_alcance projetos ->
     exists r, mochila_gulosa divisao menor projetos capacidade = Ret r /\
       escolha_viavel projetos capacidade r) /\
  escolha_viavel projetos capacidade (mochila_recursiva projetos capacidade) /\
  escolha_viavel projetos capacidade (mochila_memo projetos capacidade) /\
  (exists r, mochila_pd projetos capacidade = Ret r /\
     escolha_viavel projetos capacidade r).
Proof.
  intros Hpos Hcap.
  destruct (mochila_recursiva_forma projetos capacidade Hcap) as (sel & Hsub & Hfit & E).
  assert (Hrec : escolha_viavel projetos capacidade (mochila_recursiva projetos capacidade)).
  { rewrite E. apply escolha_viavel_selecao; [by apply sublist_submseteq|done]. }
  split; [|split; [done|split]].
  - intros Hra.
    destruct (mochila_gulosa_selecao divisao menor projetos capacidade Hra)
      as (sel' & Hsub' & E' & Hfit').
    eexists. split; [done|]. apply escolha_viavel_selecao; auto.
  - by rewrite mochila_memo_recursiva.
  - eexists. split; [by apply mochila_pd_recursiva|done].
Qed.

Lemma todos_viaveis_witness :
  custos_positivos exemplo_enunciado.1 /\ 0 <= exemplo_enunciado.2 /\
  razoes_no_alcance exemplo_enunciado.1 /\
  (exists r, mochila_gulosa razao_exata razao_menor exemplo_enunciado.1 exemplo_enunciado.2
               = Ret r /\
     escolha_viavel exemplo_enunciado.1 exemplo_enunciado.2 r) /\
  escolha_viavel exemplo_enunciado.1 exemplo_enunciado.2
    (mochila_recursiva exemplo_enunciado.1 exemplo_enunciado.2) /\
  escolha_viavel exemplo_enunciado.1 exemplo_enunciado.2
    (mochila_memo exemplo_enunciado.1 exemplo_enunciado.2) /\
  (exists r, mochila_pd exemplo_enunciado.1 exemplo_enunciado.2 = Ret r /\
     escolha_viavel exemplo_enunciado.1 exemplo_enunciado.2 r).
Proof.
  assert (H1 : custos_positivos exemplo_enunciado.1) by (repeat constructor).
  assert (H2 : 0 <= exemplo_enunciado.2) by (simpl; lia).
  assert (H0 : razoes_no_alcance exemplo_enunciado.1) by (repeat constructor).
  split; [exact H1|]. split; [exact H2|]. split; [exact H0|].
  destruct (todos_viaveis razao_exata razao_menor _ _ H1 H2) as (Hg & Hr & Hm & Hp).
  exact (conj (Hg H0) (conj Hr (conj Hm Hp))).
Defined.

(** C6 as stated fails: on the single project of value 10^400 and cost 1,
    with capacity 2, the greedy solver raises [OverflowError] and returns
    no choice at all. *)
Lemma gulosa_transborda_sem_escolha :
  custos_positivos [projeto_enorme] /\ 0 <= 2 /\
  mochila_gulosa razao_exata razao_menor [projeto_enorme] 2 = Raise OverflowError /\
  ~ (exists r, mochila_gulosa razao_exata razao_menor [projeto_enorme] 2 = Ret r /\
       escolha_viavel [projeto_enorme] 2 r).
Proof.
  assert (E : mochila_gulosa razao_exata razao_menor [projeto_enorme] 2
                = Raise OverflowError) by (vm_compute; reflexivity).
  split; [repeat constructor|]. split; [lia|]. split; [exact E|].
  intros (r & Hr & _). rewrite E in Hr. discriminate Hr.
Qed.

(** C7, as the code has it.  On every list of projects with positive
    costs and every capacity that is not negative, the total value each of
    the two recursions and the table solver returns is the sum of the
    values of the projects it names; so is that of the greedy solver when
    every ratio value/cost is within the range of a double. *)
Theorem todos_coerentes {K} (divisao : Z -> Z -> K) (menor : K -> K -> bool)
    projetos capacidade :
  custos_positivos projetos -> 0 <= capacidade ->
  (razoes_no_alcance projetos ->
     exists r, mochila_gulosa divisao menor projetos capacidade = Ret r /\
       valor_coerente projetos r) /\
  valor_coerente projetos (mochila_recursiva projetos capacidade) /\
  valor_coerente projetos (mochila_memo projetos capacidade) /\
  (exists r, mochila_pd projetos capacidade = Ret r /\ valor_coerente projetos r).
Proof.
  intros Hpos Hcap.
  destruct (mochila_recursiva_forma projetos capacidade Hcap) as (sel & Hsub & Hfit & E).
  assert (Hrec : valor_coerente projetos (mochila_recursiva projetos capacidade)).
  { rewrite E. apply valor_coerente_selecao. by apply sublist_submseteq. }
  split; [|split; [done|split]].
  - intros Hra.
    destruct (mochila_gulosa_selecao divisao menor projetos capacidade Hra)
      as (sel' & Hsub' & E' & Hfit').
    eexists. split; [done|]. by apply valor_coerente_selecao.
  - by rewrite mochila_memo_recursiva.
  - eexists. split; [by apply mochila_pd_recursiva|done].
Qed.

Lemma todos_coerentes_witness :
  custos_positivos exemplo_enunciado.1 /\ 0 <= exemplo_enunciado.2 /\
  razoes_no_alcance exemplo_enunciado.1 /\
  (exists r, mochila_gulosa razao_exata razao_menor exemplo_enunciado.1 exemplo_enunciado.2
               = Ret r /\
     valor_coerente exemplo_enunciado.1 r) /\
  valor_coerente exemplo_enunciado.1
    (mochila_recursiva exemplo_enunciado.1 exemplo_enunciado.2) /\
  valor_coerente exemplo_enunciado.1
    (mochila_memo exemplo_enunciado.1 exemplo_enunciado.2) /\
  (exists r, mochila_pd exemplo_enunciado.1 exemplo_enunciado.2 = Ret r /\
     valor_coerente exemplo_enunciado.1 r).
Proof.
  assert (H1 : custos_positivos exemplo_enunciado.1) by (repeat constructor).
  assert (H2 : 0 <= exemplo_enunciado.2) by (simpl; lia).
  assert (H0 : razoes_no_alcance exemplo_enunciado.1) by (repeat constructor).
  split; [exact H1|]. split; [exact H2|]. split; [exact H0|].
  destruct (todos_coerentes razao_exata razao_menor _ _ H1 H2) as (Hg & Hr & Hm & Hp).
  exact (conj (Hg H0) (conj Hr (conj Hm Hp))).
Defined.

(** C7 as stated fails: on the single project of value 10^400 and cost 1,
    with capacity 3, the greedy solver raises [OverflowError] and returns
    no value. *)
Lemma gulosa_transborda_sem_soma :
  custos_positivos [projeto_enorme] /\ 0 <= 3 /\
  mochila_gulosa razao_exata razao_menor [projeto_enorme] 3 = Raise OverflowError /\
  ~ (exists r, mochila_gulosa razao_exata razao_menor [projeto_enorme] 3 = Ret r /\
       valor_coerente [projeto_enorme] r).
Proof.
  assert (E : mochila_gulosa razao_exata razao_menor [projeto_enorme] 3
                = Raise OverflowError) by (vm_compute; reflexivity).
  split; [repeat constructor|]. split; [lia|]. split; [exact E|].
  intros (r & Hr & _). rewrite E in Hr. discriminate Hr.
Qed.

Lemma filter_valor_positivo ps :
  Forall (fun p => 0 < valor p) ps -> filter (fun p => 0 < valor p) ps = ps.
Proof.
  induction 1 as [|p ps Hp _ IH]; [done|].
  by rewrite filter_cons_True, IH.
Qed.

(** C8, as the code has it.  When the costs are positive, the values not
    negative and all the projects fit together, the two recursions and the
    table solver return the sum of all the values and name, in input
    order, the projects of strictly positive value, which is every project
    when no value is zero.  When moreover every ratio value/cost is within
    the range of a double, the greedy solver returns the sum of all the
    values and names every project. *)
Theorem tudo_cabe {K} (divisao : Z -> Z -> K) (menor : K -> K -> bool)
    projetos capacidade :
  custos_positivos projetos -> valores_nao_negativos projetos ->
  soma_custo projetos <= capacidade ->
  (razoes_no_alcance projetos ->
     exists itens, mochila_gulosa divisao menor projetos capacidade
                     = Ret (soma_valor projetos, itens) /\
       itens ≡ₚ nome <$> projetos) /\
  mochila_recursiva projetos capacidade =
    (soma_valor projetos, nome <$> filter (fun p => 0 < valor p) projetos) /\
  mochila_memo projetos capacidade =
    (soma_valor projetos, nome <$> filter (fun p => 0 < valor p) projetos) /\
  mochila_pd projetos capacidade =
    Ret (soma_valor projetos, nome <$> filter (fun p => 0 < valor p) projetos) /\
  (Forall (fun p => 0 < valor p) projetos ->
     filter (fun p => 0 < valor p) projetos = projetos).
Proof.
  intros Hpos Hval Hfit.
  pose proof (soma_custo_nao_negativa projetos Hpos) as Hnn.
  pose proof (mochila_recursiva_tudo projetos capacidade Hpos Hval Hfit) as Hrec.
  split; [|split; [done|split; [|split]]].
  - intros Hra. unfold mochila_gulosa.
    destruct (decorar_ok divisao projetos Hra) as (l & E & Hl).
    rewrite E. simpl.
    assert (Hperm : (ordenar menor l).*2 ≡ₚ projetos) by (by rewrite ordenar_perm, Hl).
    rewrite guloso_tudo.
    + eexists. split; [by rewrite (soma_valor_perm _ _ Hperm)|]. simpl. by rewrite Hperm.
    + unfold custos_positivos. by rewrite Hperm.
    + by rewrite (soma_custo_perm _ _ Hperm).
  - by rewrite mochila_memo_recursiva.
  - rewrite mochila_pd_recursiva by (done || lia). by rewrite Hrec.
  - apply filter_valor_positivo.
Qed.

Lemma tudo_cabe_witness :
  custos_positivos exemplo_enunciado.1 /\ valores_nao_negativos exemplo_enunciado.1 /\
  soma_custo exemplo_enunciado.1 <= 12 /\
  razoes_no_alcance exemplo_enunciado.1 /\
  (exists itens, mochila_gulosa razao_exata razao_menor exemplo_enunciado.1 12
                   = Ret (soma_valor exemplo_enunciado.1, itens) /\
     itens ≡ₚ nome <$> exemplo_enunciado.1) /\
  mochila_recursiva exemplo_enunciado.1 12 =
    (soma_valor exemplo_enunciado.1,
     nome <$> filter (fun p => 0 < valor p) exemplo_enunciado.1) /\
  mochila_memo exemplo_enunciado.1 12 =
    (soma_valor exemplo_enunciado.1,
     nome <$> filter (fun p => 0 < valor p) exemplo_enunciado.1) /\
  mochila_pd exemplo_enunciado.1 12 =
    Ret (soma_valor exemplo_enunciado.1,
         nome <$> filter (fun p => 0 < valor p) exemplo_enunciado.1) /\
  (Forall (fun p => 0 < valor p) exemplo_enunciado.1 ->
     filter (fun p => 0 < valor p) exemplo_enunciado.1 = exemplo_enunciado.1).
Proof.
  assert (H1 : custos_positivos exemplo_enunciado.1) by (repeat constructor).
  assert (H2 : valores_nao_negativos exemplo_enunciado.1)
    by (repeat constructor; discriminate).
  assert (H3 : soma_custo exemplo_enunciado.1 <= 12) by (vm_compute; discriminate).
  assert (H0 : razoes_no_alcance exemplo_enunciado.1) by (repeat constructor).
  split; [exact H1|]. split; [exact H2|]. split; [exact H3|]. split; [exact H0|].
  destruct (tudo_cabe razao_exata razao_menor _ _ H1 H2 H3) as (Hg & Hrest).
  exact (conj (Hg H0) Hrest).
Defined.

(** C8 as stated fails: the single project A of value 0 and cost 1 fits
    in capacity 1, and the two recursions and the table solver leave it
    out; and the single project of value 10^400 and cost 1 fits in
    capacity 1, and the greedy solver raises [OverflowError]. *)
Lemma valor_zero_fica_de_fora :
  custos_positivos [MkProjeto "A" 0 1] /\ valores_nao_negativos [MkProjeto "A" 0 1] /\
  Forall (fun p => custo p <= 1) [MkProjeto "A" 0 1] /\
  soma_custo [MkProjeto "A" 0 1] <= 1 /\
  mochila_recursiva [MkProjeto "A" 0 1] 1 = (0, []) /\
  mochila_memo [MkProjeto "A" 0 1] 1 = (0, []) /\
  mochila_pd [MkProjeto "A" 0 1] 1 = Ret (0, []) /\
  ("A" ∉ (mochila_recursiva [MkProjeto "A" 0 1] 1).2) /\
  custos_positivos [projeto_enorme] /\ valores_nao_negativos [projeto_enorme] /\
  soma_custo [projeto_enorme] <= 1 /\
  mochila_gulosa razao_exata razao_menor [projeto_enorme] 1 = Raise OverflowError.
Proof.
  split; [repeat constructor|]. split; [repeat constructor; discriminate|].
  split; [repeat constructor; discriminate|].
  split; [vm_compute; discriminate|].
  split; [vm_compute; reflexivity|]. split; [vm_compute; reflexivity|].
  split; [vm_compute; reflexivity|].
  split; [vm_compute; apply not_elem_of_nil|].
  split; [repeat constructor|]. split; [repeat constructor; discriminate|].
  split; [vm_compute; discriminate|].
  vm_compute. reflexivity.
Qed.

Lemma linhas_ok_ler2 projetos capacidade tabela (i : nat) (c : Z) :
  linhas_ok projetos capacidade (length projetos) tabela ->
  (i <= length projetos)%nat -> 0 <= c <= capacidade ->
  ler2 tabela (Z.of_nat i) c = Ret (resolver projetos i c).1.
Proof.
  intros (Hf & Hlen & Hcel) Hi Hc.
  rewrite (ler2_dentro (Z.to_nat (capacidade + 1))) by (done || lia).
  rewrite Hcel by lia. by rewrite Z2Nat.id by lia.
Qed.

(** C9. On every list of projects with positive costs and every capacity
    that is not negative, the fill returns a table whose row 0 is zero at
    every column [0 .. capacidade] and whose cells do not decrease down a
    column (in the row index [i]) nor along a row (in the column [c]). *)
Theorem tabela_monotona projetos capacidade :
  custos_positivos projetos -> 0 <= capacidade ->
  exists tabela, preencher projetos capacidade = Ret tabela /\
    (forall c, 0 <= c <= capacidade -> ler2 tabela 0 c = Ret 0) /\
    (forall i i' c, 0 <= i <= i' -> i' <= Z.of_nat (length projetos) ->
       0 <= c <= capacidade ->
       exists a b, ler2 tabela i c = Ret a /\ ler2 tabela i' c = Ret b /\ a <= b) /\
    (forall i c c', 0 <= i <= Z.of_nat (length projetos) ->
       0 <= c <= c' -> c' <= capacidade ->
       exists a b, ler2 tabela i c = Ret a /\ ler2 tabela i c' = Ret b /\ a <= b).
Proof.
  intros Hpos Hcap.
  destruct (preencher_ok projetos capacidade Hpos) as (tabela & E & Hok).
  exists tabela. split; [done|]. repeat split.
  - intros c Hc.
    exact (linhas_ok_ler2 projetos capacidade tabela 0 c Hok (Nat.le_0_l _) Hc).
  - intros i i' c Hi Hi' Hc.
    exists (resolver projetos (Z.to_nat i) c).1, (resolver projetos (Z.to_nat i') c).1.
    rewrite <- (Z2Nat.id i) at 1 by lia. rewrite <- (Z2Nat.id i') at 1 by lia.
    rewrite !(linhas_ok_ler2 projetos capacidade) by (done || lia).
    repeat split. apply resolver_mono_linhas. lia.
  - intros i c c' Hi Hc Hc'.
    exists (resolver projetos (Z.to_nat i) c).1, (resolver projetos (Z.to_nat i) c').1.
    rewrite <- (Z2Nat.id i) at 1 3 by lia.
    rewrite !(linhas_ok_ler2 projetos capacidade) by (done || lia).
    repeat split. apply resolver_mono_c; lia.
Qed.

Lemma tabela_monotona_witness :
  custos_positivos exemplo_enunciado.1 /\ 0 <= exemplo_enunciado.2 /\
  exists tabela, preencher exemplo_enunciado.1 exemplo_enunciado.2 = Ret tabela /\
    (forall c, 0 <= c <= 10 -> ler2 tabela 0 c = Ret 0) /\
    (exists a b, ler2 tabela 1 4 = Ret a /\ ler2 tabela 3 4 = Ret b /\ a <= b) /\
    (exists a b, ler2 tabela 2 3 = Ret a /\ ler2 tabela 2 9 = Ret b /\ a <= b).
Proof.
  assert (H1 : custos_positivos exemplo_enunciado.1) by (repeat constructor).
  assert (H2 : 0 <= exemplo_enunciado.2) by (simpl; lia).
  split; [exact H1|]. split; [exact H2|].
  destruct (tabela_monotona _ _ H1 H2) as (tabela & E & H0 & Hi & Hc).
  exists tabela. split; [exact E|]. split; [exact H0|]. split.
  - apply Hi; simpl; lia.
  - apply Hc; simpl; lia.
Defined.

(** C10, as the code has it.  On every list of projects with positive
    costs and every negative capacity, the pure recursion and the memoized
    recursion each return the value 0 and no names, without raising; so
    does the greedy solver when every ratio value/cost is within the range
    of a double. *)
Theorem capacidade_negativa {K} (divisao : Z -> Z -> K) (menor : K -> K -> bool)
    projetos capacidade :
  custos_positivos projetos -> capacidade < 0 ->
  (razoes_no_alcance projetos ->
     mochila_gulosa divisao menor projetos capacidade = Ret (0, [])) /\
  mochila_recursiva projetos capacidade = (0, []) /\
  mochila_memo projetos capacidade = (0, []).
Proof.
  intros Hpos Hcap.
  assert (Hrec : mochila_recursiva projetos capacidade = (0, []))
    by (apply resolver_nao_positivo; lia).
  split; [|split; [done|by rewrite mochila_memo_recursiva]].
  intros Hra. unfold mochila_gulosa.
  destruct (decorar_ok divisao projetos Hra) as (l & E & Hl).
  rewrite E. simpl. rewrite guloso_nada; [done| |lia].
  unfold custos_positivos. by rewrite ordenar_perm, Hl.
Qed.

Lemma capacidade_negativa_witness :
  custos_positivos exemplo_enunciado.1 /\ -1 < 0 /\
  razoes_no_alcance exemplo_enunciado.1 /\
  mochila_gulosa razao_exata razao_menor exemplo_enunciado.1 (-1) = Ret (0, []) /\
  mochila_recursiva exemplo_enunciado.1 (-1) = (0, []) /\
  mochila_memo exemplo_enunciado.1 (-1) = (0, []).
Proof.
  assert (H1 : custos_positivos exemplo_enunciado.1) by (repeat constructor).
  assert (H2 : -1 < 0) by lia.
  assert (H0 : razoes_no_alcance exemplo_enunciado.1) by (repeat constructor).
  split; [exact H1|]. split; [exact H2|]. split; [exact H0|].
  destruct (capacidade_negativa razao_exata razao_menor _ _ H1 H2) as (Hg & Hrest).
  exact (conj (Hg H0) Hrest).
Defined.

(** C10 as stated fails: on the single project of value 10^400 and cost
    1, with capacity -1, the greedy solver raises [OverflowError]: the sort
    keys are computed before the loop looks at the capacity. *)
Lemma gulosa_transborda_capacidade_negativa :
  custos_positivos [projeto_enorme] /\ -1 < 0 /\
  mochila_gulosa razao_exata razao_menor [projeto_enorme] (-1) = Raise OverflowError /\
  mochila_gulosa razao_exata razao_menor [projeto_enorme] (-1) ≠ Ret (0, []).
Proof.
  assert (E : mochila_gulosa razao_exata razao_menor [projeto_enorme] (-1)
                = Raise OverflowError) by (vm_compute; reflexivity).
  split; [repeat constructor|]. split; [lia|]. split; [exact E|].
  rewrite E. discriminate.
Qed.

(** * Further properties of the solvers *)

(** ** Edge inputs *)







Lemma resolver_nada_cabe projetos k c :
  Forall (fun p => c < custo p) projetos -> resolver projetos k c = (0, []).
Proof.
  intros Hall. induction k as [|i IH]; [done|].
  destruct (decide (c <= 0)) as [Hc|Hc]; [by apply resolver_nao_positivo|].
  destruct (projetos !! i) as [p|] eqn:Hp.
  - rewrite (resolver_S _ _ _ _ Hp) by lia.
    pose proof (Forall_lookup_1 _ _ _ _ Hall Hp) as Hcp. simpl in Hcp.
    by destruct (Z.gtb_spec (custo p) c); [|lia].
  - simpl. rewrite Hp. by destruct (c <=? 0).
Qed.

Lemma guloso_nada_cabe xs : forall r v esc,
  Forall (fun p => r < custo p) xs ->
  foldl passo_guloso (r, v, esc) xs = (r, v, esc).
Proof.
  induction xs as [|p xs IH]; intros r v esc Hall; [done|].
  apply Forall_cons in Hall as [Hp Hall].
  simpl. destruct (Z.leb_spec (custo p) r); [lia|]. by apply IH.
Qed.

(** X2. When no project fits on its own (every cost is greater than the
    capacity, which is not negative), the two recursions and the table
    solver return the value 0 and no names; so does the greedy solver when
    every ratio value/cost is within the range of a double.  This covers
    the capacity 0 with positive costs. *)
Theorem nada_cabe {K} (divisao : Z -> Z -> K) (menor : K -> K -> bool)
    projetos capacidade :
  Forall (fun p => capacidade < custo p) projetos -> 0 <= capacidade ->
  (razoes_no_alcance projetos ->
     mochila_gulosa divisao menor projetos capacidade = Ret (0, [])) /\
  mochila_recursiva projetos capacidade = (0, []) /\
  mochila_memo projetos capacidade = (0, []) /\
  mochila_pd projetos capacidade = Ret (0, []).
Proof.
  intros Hall Hcap.
  assert (Hpos : custos_positivos projetos).
  { eapply Forall_impl; [exact Hall|]. intros p Hp. simpl in Hp. lia. }
  assert (Hrec : mochila_recursiva projetos capacidade = (0, []))
    by (by apply resolver_nada_cabe).
  split; [|split; [done|split]].
  - intros Hra. unfold mochila_gulosa.
    destruct (decorar_ok divisao projetos Hra) as (l & E & Hl).
    rewrite E. simpl. rewrite guloso_nada_cabe; [done|].
    by rewrite ordenar_perm, Hl.
  - by rewrite mochila_memo_recursiva.
  - rewrite mochila_pd_recursiva by done. by rewrite Hrec.
Qed.

Lemma nada_cabe_witness :
  Forall (fun p => 1 < custo p) exemplo_enunciado.1 /\ 0 <= 1 /\
  razoes_no_alcance exemplo_enunciado.1 /\
  mochila_gulosa razao_exata razao_menor exemplo_enunciado.1 1 = Ret (0, []) /\
  mochila_recursiva exemplo_enunciado.1 1 = (0, []) /\
  mochila_memo exemplo_enunciado.1 1 = (0, []) /\
  mochila_pd exemplo_enunciado.1 1 = Ret (0, []).
Proof.
  assert (H1 : Forall (fun p => 1 < custo p) exemplo_enunciado.1) by (repeat constructor).
  assert (H2 : 0 <= 1) by lia.
  assert (H0 : razoes_no_alcance exemplo_enunciado.1) by (repeat constructor).
  split; [exact H1|]. split; [exact H2|]. split; [exact H0|].
  destruct (nada_cabe razao_exata razao_menor _ _ H1 H2) as (Hg & Hrest).
  exact (conj (Hg H0) Hrest).
Defined.

(** ** The value as a function of the input *)

(** X3. Whatever the projects (costs and values of any sign), the value
    the two recursions return is never negative and does not decrease when
    the capacity grows. *)
Theorem valor_cresce_com_capacidade projetos c c' :
  c <= c' ->
  0 <= (mochila_recursiva projetos c).1 <= (mochila_recursiva projetos c').1 /\
  0 <= (mochila_memo projetos c).1 <= (mochila_memo projetos c').1.
Proof.
  intros Hcc. rewrite !mochila_memo_recursiva. unfold mochila_recursiva.
  pose proof (resolver_nao_negativo projetos (length projetos) c).
  pose proof (resolver_mono_c projetos (length projetos) c c' (Nat.le_refl _) Hcc).
  lia.
Qed.

Lemma valor_cresce_com_capacidade_witness :
  3 <= 10 /\
  0 <= (mochila_recursiva exemplo_enunciado.1 3).1 <= (mochila_recursiva exemplo_enunciado.1 10).1 /\
  0 <= (mochila_memo exemplo_enunciado.1 3).1 <= (mochila_memo exemplo_enunciado.1 10).1.
Proof.
  assert (H : 3 <= 10) by lia.
  split; [exact H|]. exact (valor_cresce_com_capacidade _ _ _ H).
Defined.

(** The recursion on the first [k] projects does not look at the later
    ones. *)
Lemma resolver_app projetos mais k : forall c,
  (k <= length projetos)%nat ->
  resolver (projetos ++ mais) k c = resolver projetos k c.
Proof.
  induction k as [|i IH]; intros c Hk; [done|].
  simpl. rewrite lookup_app_l by lia.
  destruct (projetos !! i) as [p|]; [|done]. by rewrite !IH by lia.
Qed.

(** X4. The pure recursion on a list with one more project at the end is
    the two-branch choice over its results on the list without it: the
    result without the project, unless the project fits and taking it is
    worth strictly more. *)
Theorem recursiva_mais_um projetos p c :
  0 < c ->
  mochila_recursiva (projetos ++ [p]) c =
    if custo p >? c then mochila_recursiva projetos c
    else if (mochila_recursiva projetos (c - custo p)).1 + valor p
              >? (mochila_recursiva projetos c).1
         then ((mochila_recursiva projetos (c - custo p)).1 + valor p,
               (mochila_recursiva projetos (c - custo p)).2 ++ [nome p])
         else mochila_recursiva projetos c.
Proof.
  intros Hc. unfold mochila_recursiva. rewrite length_app. simpl.
  replace (length projetos + 1)%nat with (S (length projetos)) by lia.
  assert (Hp : (projetos ++ [p]) !! length projetos = Some p)
    by (by apply list_lookup_middle).
  rewrite (resolver_S _ _ _ _ Hp) by done.
  by rewrite !resolver_app.
Qed.

Lemma recursiva_mais_um_witness :
  0 < 10 /\
  mochila_recursiva ([MkProjeto "A" 12 4; MkProjeto "B" 10 3] ++ [MkProjeto "C" 7 2]) 10 =
    (29, ["A"; "B"; "C"]).
Proof.
  assert (H : 0 < 10) by lia.
  split; [exact H|].
  exact (recursiva_mais_um [MkProjeto "A" 12 4; MkProjeto "B" 10 3] (MkProjeto "C" 7 2) 10 H).
Defined.

(** X5. One more project at the end of the list never lowers the value
    the two recursions return, whatever the input. *)
Theorem mais_um_nao_piora projetos p c :
  (mochila_recursiva projetos c).1 <= (mochila_recursiva (projetos ++ [p]) c).1 /\
  (mochila_memo projetos c).1 <= (mochila_memo (projetos ++ [p]) c).1.
Proof.
  rewrite !mochila_memo_recursiva. unfold mochila_recursiva.
  rewrite length_app. simpl.
  replace (length projetos + 1)%nat with (S (length projetos)) by lia.
  rewrite <- (resolver_app projetos [p] (length projetos) c) by done.
  split; apply resolver_mono_i; rewrite length_app; simpl; lia.
Qed.

Lemma resolver_nomes projetos k : forall c,
  (resolver projetos k c).2 `sublist_of` nome <$> take k projetos.
Proof.
  induction k as [|i IH]; intros c; [done|].
  destruct (decide (c <= 0)) as [Hc|Hc].
  { rewrite resolver_nao_positivo by done. apply sublist_nil_l. }
  destruct (projetos !! i) as [p|] eqn:Hp.
  2:{ simpl. rewrite Hp. destruct (c <=? 0); apply sublist_nil_l. }
  rewrite (take_S_r _ _ _ Hp), fmap_app, (resolver_S _ _ _ _ Hp) by lia.
  destruct (custo p >? c); [by apply sublist_inserts_r|].
  destruct (_ >? _); simpl; [|by apply sublist_inserts_r].
  by apply sublist_app.
Qed.

(** X6. Whatever the input, the names the two recursions return are names
    of the projects in input order, each project named at most once: a
    sublist of the names of the list, so never more names than
    projects. *)
Theorem nomes_em_ordem projetos capacidade :
  (mochila_recursiva projetos capacidade).2 `sublist_of` nome <$> projetos /\
  (mochila_memo projetos capacidade).2 `sublist_of` nome <$> projetos /\
  (length (mochila_recursiva projetos capacidade).2 <= length projetos)%nat.
Proof.
  assert (H : (mochila_recursiva projetos capacidade).2 `sublist_of` nome <$> projetos).
  { unfold mochila_recursiva.
    pose proof (resolver_nomes projetos (length projetos) capacidade) as Hs.
    by rewrite take_ge in Hs. }
  split; [done|]. split; [by rewrite mochila_memo_recursiva|].
  apply sublist_length in H. by rewrite length_fmap in H.
Qed.

(** ** The memo dictionary *)

Lemma resolver_memo_preserva projetos k : forall c memo key r,
  memo !! key = Some r -> (resolver_memo projetos k c memo).2 !! key = Some r.
Proof.
  induction k as [|i IH]; intros c memo key r Hk; [done|].
  simpl. destruct (c <=? 0); [done|].
  destruct (memo !! (i, c)) as [r0|] eqn:Hl; [done|].
  destruct (projetos !! i) as [p|]; [|done].
  assert (Hne : (i, c) ≠ key) by (intros <-; congruence).
  pose proof (IH c memo key r Hk) as H1.
  destruct (resolver_memo projetos i c memo) as [[valor_sem itens_sem] memo1].
  simpl in H1. destruct (custo p >? c).
  { simpl. by rewrite lookup_insert_ne. }
  pose proof (IH (c - custo p) memo1 key r H1) as H2.
  destruct (resolver_memo projetos i (c - custo p) memo1) as [[valor_com0 itens_com0] memo2].
  simpl in H2. destruct (_ >? _); simpl; by rewrite lookup_insert_ne.
Qed.

(** X7. A call of the memoized recursion never removes or overwrites an
    entry of the dictionary: every entry present before the call is
    present, with the same result, after it. *)
Theorem memo_nunca_sobrescreve (projetos : list Projeto) (k : nat) (c : Z)
    (memo : gmap (nat * Z) (Z * list string)) (i : nat) (d : Z) (r : Z * list string) :
  memo !! (i, d) = Some r ->
  (resolver_memo projetos k c memo).2 !! (i, d) = Some r.
Proof. apply resolver_memo_preserva. Qed.

Lemma memo_nunca_sobrescreve_witness :
  ({[ (7%nat, 7) := (1, ["X"]) ]} : gmap (nat * Z) (Z * list string)) !! (7%nat, 7)
    = Some (1, ["X"]) /\
  (resolver_memo exemplo_enunciado.1 4 10 {[ (7%nat, 7) := (1, ["X"]) ]}).2 !! (7%nat, 7)
    = Some (1, ["X"]).
Proof.
  assert (H : ({[ (7%nat, 7) := (1, ["X"]) ]} : gmap (nat * Z) (Z * list string))
                !! (7%nat, 7) = Some (1, ["X"])) by (vm_compute; reflexivity).
  split; [exact H|].
  exact (memo_nunca_sobrescreve exemplo_enunciado.1 4 10 _ 7%nat 7 _ H).
Defined.

(** The state asked for is in the dictionary when the call returns. *)
Lemma resolver_memo_guarda projetos i c memo p :
  projetos !! i = Some p -> 0 < c ->
  (resolver_memo projetos (S i) c memo).2 !! (i, c) =
    Some (resolver_memo projetos (S i) c memo).1.
Proof.
  intros Hp Hc. simpl. destruct (Z.leb_spec c 0); [lia|].
  destruct (memo !! (i, c)) as [r0|] eqn:Hl; [done|]. rewrite Hp.
  destruct (resolver_memo projetos i c memo) as [[valor_sem itens_sem] memo1].
  destruct (custo p >? c); [simpl; by rewrite lookup_insert_eq|].
  destruct (resolver_memo projetos i (c - custo p) memo1) as [[valor_com0 itens_com0] memo2].
  destruct (_ >? _); simpl; by rewrite lookup_insert_eq.
Qed.

(** X8. A call of the memoized recursion repeated on the dictionary it
    left returns the same result and leaves the dictionary as it is:
    nothing is computed twice. *)
Theorem memo_reuso projetos k c memo :
  resolver_memo projetos k c (resolver_memo projetos k c memo).2 =
    resolver_memo projetos k c memo.
Proof.
  destruct k as [|i]; [done|].
  destruct (decide (c <= 0)) as [Hc|Hc].
  { simpl. by destruct (Z.leb_spec c 0); [|lia]. }
  destruct (projetos !! i) as [p|] eqn:Hp.
  - pose proof (resolver_memo_guarda projetos i c memo p Hp ltac:(lia)) as Hg.
    destruct (resolver_memo projetos (S i) c memo) as [r memo'] eqn:E.
    simpl in Hg. cbn [fst snd]. clear E. simpl.
    destruct (Z.leb_spec c 0); [lia|]. by rewrite Hg.
  - simpl. destruct (Z.leb_spec c 0); [lia|].
    destruct (memo !! (i, c)) as [r0|] eqn:Hl; simpl.
    + destruct (Z.leb_spec c 0); [lia|]. by rewrite Hl.
    + rewrite Hp. simpl. destruct (Z.leb_spec c 0); [lia|]. by rewrite Hl.
Qed.

Lemma resolver_memo_dominio projetos capacidade k : forall c memo,
  custos_nao_negativos projetos -> c <= capacidade ->
  (forall i d, is_Some (memo !! (i, d)) -> (i < length projetos)%nat /\ 0 < d <= capacidade) ->
  forall i d, is_Some ((resolver_memo projetos k c memo).2 !! (i, d)) ->
    (i < length projetos)%nat /\ 0 < d <= capacidade.
Proof.
  induction k as [|i IH]; intros c memo Hnn Hc Hm; [done|].
  simpl. destruct (Z.leb_spec c 0); [done|].
  destruct (memo !! (i, c)) as [r0|] eqn:Hl; [done|].
  destruct (projetos !! i) as [p|] eqn:Hp; [|done].
  assert (0 <= custo p) as Hcp by (eapply (Forall_lookup_1 _ _ _ _ Hnn Hp)).
  pose proof (lookup_lt_Some _ _ _ Hp) as Hi.
  pose proof (IH c memo Hnn Hc Hm) as H1.
  destruct (resolver_memo projetos i c memo) as [[valor_sem itens_sem] memo1].
  simpl in H1.
  assert (Hins : forall (m : gmap (nat * Z) (Z * list string)) x,
    (forall j d, is_Some (m !! (j, d)) -> (j < length projetos)%nat /\ 0 < d <= capacidade) ->
    forall j d, is_Some (<[(i, c) := x]> m !! (j, d)) ->
      (j < length projetos)%nat /\ 0 < d <= capacidade).
  { intros m x Hmm j d. rewrite lookup_insert. case_decide as Heq; [|apply Hmm].
    injection Heq as <- <-. intros _. lia. }
  destruct (custo p >? c); [by apply Hins|].
  pose proof (IH (c - custo p) memo1 Hnn ltac:(lia) H1) as H2.
  destruct (resolver_memo projetos i (c - custo p) memo1) as [[valor_com0 itens_com0] memo2].
  simpl in H2. destruct (_ >? _); by apply Hins.
Qed.

(** X9. When [mochila_memo] returns, every entry [(i, c)] of its
    dictionary holds the result of the pure recursion at that state, and
    for a list that is not empty and a positive capacity the entry of the
    state asked for, [(n - 1, capacidade)], holds the result returned. *)
Theorem memo_final_fiel projetos capacidade :
  (forall i c r, memo_final projetos capacidade !! (i, c) = Some r ->
     r = resolver projetos (S i) c) /\
  (projetos ≠ [] -> 0 < capacidade ->
     memo_final projetos capacidade !! ((length projetos - 1)%nat, capacidade)
       = Some (mochila_memo projetos capacidade)).
Proof.
  unfold memo_final, mochila_memo. split.
  - apply (resolver_memo_fiel projetos (length projetos) capacidade ∅),
      memo_fiel_vazio.
  - intros Hne Hcap. destruct (length projetos) as [|i] eqn:Hlen.
    { by destruct projetos. }
    replace (S i - 1)%nat with i by lia.
    destruct (lookup_lt_is_Some_2 projetos i) as [p Hp]; [lia|].
    by apply (resolver_memo_guarda _ _ _ _ p).
Qed.

Lemma memo_final_fiel_witness :
  exemplo_enunciado.1 ≠ [] /\ 0 < exemplo_enunciado.2 /\
  memo_final exemplo_enunciado.1 exemplo_enunciado.2
    !! ((length exemplo_enunciado.1 - 1)%nat, exemplo_enunciado.2)
    = Some (mochila_memo exemplo_enunciado.1 exemplo_enunciado.2).
Proof.
  assert (H1 : exemplo_enunciado.1 ≠ []) by discriminate.
  assert (H2 : 0 < exemplo_enunciado.2) by (simpl; lia).
  split; [exact H1|]. split; [exact H2|].
  exact (proj2 (memo_final_fiel _ _) H1 H2).
Defined.

(** X10. When no cost is negative, the dictionary of [mochila_memo] only
    ever has keys [(i, c)] with [0 <= i < n] and [0 < c <= capacidade]. *)
Theorem memo_final_dominio projetos capacidade i c :
  custos_nao_negativos projetos ->
  is_Some (memo_final projetos capacidade !! (i, c)) ->
  (i < length projetos)%nat /\ 0 < c <= capacidade.
Proof.
  intros Hnn. apply (resolver_memo_dominio projetos capacidade); [done|lia|].
  intros j d [x Hx]. by rewrite lookup_empty in Hx.
Qed.

Lemma memo_final_dominio_witness :
  custos_nao_negativos exemplo_enunciado.1 /\
  is_Some (memo_final exemplo_enunciado.1 10 !! (3%nat, 10)) /\
  (3 < length exemplo_enunciado.1)%nat /\ 0 < 10 <= 10.
Proof.
  assert (H1 : custos_nao_negativos exemplo_enunciado.1)
    by (repeat constructor; discriminate).
  assert (H2 : is_Some (memo_final exemplo_enunciado.1 10 !! (3%nat, 10)))
    by (vm_compute; eexists; reflexivity).
  split; [exact H1|]. split; [exact H2|].
  exact (memo_final_dominio _ _ _ _ H1 H2).
Defined.

(** ** The order of the greedy solver *)

Section OrdemGulosa.
Context {K : Type} (menor : K -> K -> bool).

(** What [<] on floats gives: if [a < b] then not [b < a], and if neither
    [a < b] nor [b < c] then not [a < c]. *)
Hypothesis menor_assimetrico : forall a b, menor a b = true -> menor b a = false.
Hypothesis menor_transitivo : forall a b c,
  menor a b = false -> menor b c = false -> menor a c = false.

Lemma inserir_decrescente x l :
  StronglySorted (fun a b : K * Projeto => menor a.1 b.1 = false) l ->
  StronglySorted (fun a b : K * Projeto => menor a.1 b.1 = false) (inserir menor x l).
Proof.
  induction 1 as [|y l Hl IH Hy]; simpl.
  { repeat constructor. }
  destruct (menor x.1 y.1) eqn:Hxy.
  - constructor; [done|].
    rewrite (inserir_perm menor x l). constructor; [|done].
    by apply menor_assimetrico.
  - constructor; [by constructor|]. constructor; [done|].
    eapply Forall_impl; [exact Hy|]. intros z Hz. simpl in *.
    by apply (menor_transitivo _ y.1).
Qed.

Lemma inserir_estavel k x l :
  filter (fun a : K * Projeto => chaves_iguais menor k a.1) (inserir menor x l) =
  filter (fun a : K * Projeto => chaves_iguais menor k a.1) (x :: l).
Proof.
  induction l as [|y l IH]; simpl; [done|].
  destruct (menor x.1 y.1) eqn:Hxy; [|done].
  rewrite filter_cons, IH, !filter_cons.
  destruct (decide (chaves_iguais menor k x.1)) as [[Hx1 Hx2]|Hx]; [|done].
  destruct (decide (chaves_iguais menor k y.1)) as [[Hy1 Hy2]|Hy]; [|done].
  rewrite (menor_transitivo _ _ _ Hx2 Hy1) in Hxy. discriminate.
Qed.

(** X11. The order in which the greedy solver goes through the projects
    is that of [sorted(..., reverse=True)]: a rearrangement of the list in
    which no key is less than a later one and in which projects of equal
    keys keep their input order. *)
Theorem ordenar_decrescente_estavel (l : list (K * Projeto)) :
  ordenar menor l ≡ₚ l /\
  StronglySorted (fun a b : K * Projeto => menor a.1 b.1 = false) (ordenar menor l) /\
  forall k, filter (fun a : K * Projeto => chaves_iguais menor k a.1) (ordenar menor l) =
            filter (fun a : K * Projeto => chaves_iguais menor k a.1) l.
Proof.
  split; [apply ordenar_perm|]. split.
  - induction l as [|x l IH]; [constructor|]. by apply inserir_decrescente.
  - intros k. induction l as [|x l IH]; [done|].
    change (ordenar menor (x :: l)) with (inserir menor x (ordenar menor l)).
    by rewrite inserir_estavel, !filter_cons, IH.
Qed.
End OrdemGulosa.

Lemma ordenar_decrescente_estavel_witness :
  (forall a b, Z.ltb a b = true -> Z.ltb b a = false) /\
  (forall a b c, Z.ltb a b = false -> Z.ltb b c = false -> Z.ltb a c = false) /\
  ordenar Z.ltb [(3, MkProjeto "A" 3 1); (5, MkProjeto "B" 5 1); (3, MkProjeto "C" 6 2)]
    ≡ₚ [(3, MkProjeto "A" 3 1); (5, MkProjeto "B" 5 1); (3, MkProjeto "C" 6 2)] /\
  StronglySorted (fun a b : Z * Projeto => Z.ltb a.1 b.1 = false)
    (ordenar Z.ltb [(3, MkProjeto "A" 3 1); (5, MkProjeto "B" 5 1); (3, MkProjeto "C" 6 2)]) /\
  forall k, filter (fun a : Z * Projeto => chaves_iguais Z.ltb k a.1)
              (ordenar Z.ltb [(3, MkProjeto "A" 3 1); (5, MkProjeto "B" 5 1);
                              (3, MkProjeto "C" 6 2)]) =
            filter (fun a : Z * Projeto => chaves_iguais Z.ltb k a.1)
              [(3, MkProjeto "A" 3 1); (5, MkProjeto "B" 5 1); (3, MkProjeto "C" 6 2)].
Proof.
  assert (H1 : forall a b, Z.ltb a b = true -> Z.ltb b a = false) by lia.
  assert (H2 : forall a b c, Z.ltb a b = false -> Z.ltb b c = false -> Z.ltb a c = false)
    by lia.
  split; [exact H1|]. split; [exact H2|].
  exact (ordenar_decrescente_estavel Z.ltb H1 H2 _).
Defined.

Section MaximalGuloso.
Context {K : Type} (divisao : Z -> Z -> K) (menor : K -> K -> bool).

(** The loop leaves out only projects that no longer fit. *)
Lemma guloso_maximal xs : forall r v esc,
  custos_nao_negativos xs ->
  exists sel resto, sel ++ resto ≡ₚ xs /\
    foldl passo_guloso (r, v, esc) xs =
      (r - soma_custo sel, v + soma_valor sel, esc ++ (nome <$> sel)) /\
    0 <= soma_custo sel /\
    Forall (fun p => r - soma_custo sel < custo p) resto.
Proof.
  induction xs as [|p xs IH]; intros r v esc Hnn.
  { exists [], []. simpl. rewrite app_nil_r.
    change (soma_custo []) with 0. change (soma_valor []) with 0.
    split; [done|]. split; [do 2 f_equal; lia|]. split; [done|constructor]. }
  apply Forall_cons in Hnn as [Hp Hnn]. simpl.
  destruct (Z.leb_spec (custo p) r).
  - destruct (IH (r - custo p) (v + valor p) (esc ++ [nome p]) Hnn)
      as (sel & resto & Hperm & E & Hs & Hresto).
    exists (p :: sel), resto.
    change (soma_custo (p :: sel)) with (custo p + soma_custo sel).
    change (soma_valor (p :: sel)) with (valor p + soma_valor sel).
    split; [simpl; by rewrite Hperm|]. split; [|split; [lia|]].
    + rewrite E, <- app_assoc. simpl. do 2 f_equal; lia.
    + eapply Forall_impl; [exact Hresto|]. intros q Hq. simpl in Hq. lia.
  - destruct (IH r v esc Hnn) as (sel & resto & Hperm & E & Hs & Hresto).
    exists sel, (p :: resto).
    split; [by rewrite <- Permutation_middle, Hperm|]. split; [done|]. split; [done|].
    apply Forall_cons. split; [lia|done].
Qed.

(** X12. With positive costs and every ratio value/cost within the range
    of a double, whatever the capacity, the greedy solver returns the
    value and the names of a part [sel] of the projects such that every
    project left out costs more than the capacity that remains: nothing
    more can be added to its choice. *)
Theorem gulosa_maximal projetos capacidade :
  custos_positivos projetos -> razoes_no_alcance projetos ->
  exists sel resto, sel ++ resto ≡ₚ projetos /\
    mochila_gulosa divisao menor projetos capacidade = Ret (soma_valor sel, nome <$> sel) /\
    Forall (fun p => capacidade - soma_custo sel < custo p) resto.
Proof.
  intros Hpos Hra. unfold mochila_gulosa.
  destruct (decorar_ok divisao projetos Hra) as (l & E & Hl).
  rewrite E. simpl.
  destruct (guloso_maximal (ordenar menor l).*2 capacidade 0 [])
    as (sel & resto & Hperm & E' & _ & Hresto).
  { unfold custos_nao_negativos. rewrite ordenar_perm, Hl.
    eapply Forall_impl; [exact Hpos|]. intros p Hp. simpl in Hp. lia. }
  exists sel, resto. rewrite E'. split; [|done].
  by rewrite Hperm, ordenar_perm, Hl.
Qed.
End MaximalGuloso.

Lemma gulosa_maximal_witness :
  custos_positivos exemplo_enunciado.1 /\ razoes_no_alcance exemplo_enunciado.1 /\
  exists sel resto, sel ++ resto ≡ₚ exemplo_enunciado.1 /\
    mochila_gulosa razao_exata razao_menor exemplo_enunciado.1 exemplo_enunciado.2
      = Ret (soma_valor sel, nome <$> sel) /\
    Forall (fun p => exemplo_enunciado.2 - soma_custo sel < custo p) resto.
Proof.
  assert (H1 : custos_positivos exemplo_enunciado.1) by (repeat constructor).
  assert (H0 : razoes_no_alcance exemplo_enunciado.1) by (repeat constructor).
  split; [exact H1|]. split; [exact H0|].
  exact (gulosa_maximal razao_exata razao_menor _ _ H1 H0).
Defined.

(** ** Optimality *)

(** X13. With positive costs and a capacity that is not negative, the two
    recursions return the value and the names of a selection of the
    projects, in input order, that fits in the capacity and is worth at
    least as much as any part of the projects that fits. *)
Theorem recursiva_otima projetos capacidade :
  custos_positivos projetos -> 0 <= capacidade ->
  exists sel, sel `sublist_of` projetos /\
    mochila_recursiva projetos capacidade = (soma_valor sel, nome <$> sel) /\
    mochila_memo projetos capacidade = (soma_valor sel, nome <$> sel) /\
    soma_custo sel <= capacidade /\
    forall outra, outra ⊆+ projetos -> soma_custo outra <= capacidade ->
      soma_valor outra <= soma_valor sel.
Proof.
  intros Hpos Hcap.
  destruct (mochila_recursiva_forma projetos capacidade Hcap) as (sel & Hsub & Hfit & E).
  exists sel. split; [done|]. split; [done|]. split; [by rewrite mochila_memo_recursiva|].
  split; [done|]. intros outra Hout Hofit.
  pose proof (mochila_recursiva_otimo projetos capacidade outra Hpos Hout Hofit) as Hle.
  by rewrite E in Hle.
Qed.

Lemma recursiva_otima_witness :
  custos_positivos exemplo_enunciado.1 /\ 0 <= exemplo_enunciado.2 /\
  exists sel, sel `sublist_of` exemplo_enunciado.1 /\
    mochila_recursiva exemplo_enunciado.1 exemplo_enunciado.2
      = (soma_valor sel, nome <$> sel) /\
    mochila_memo exemplo_enunciado.1 exemplo_enunciado.2
      = (soma_valor sel, nome <$> sel) /\
    soma_custo sel <= exemplo_enunciado.2 /\
    forall outra, outra ⊆+ exemplo_enunciado.1 -> soma_custo outra <= exemplo_enunciado.2 ->
      soma_valor outra <= soma_valor sel.
Proof.
  assert (H1 : custos_positivos exemplo_enunciado.1) by (repeat constructor).
  assert (H2 : 0 <= exemplo_enunciado.2) by (simpl; lia).
  split; [exact H1|]. split; [exact H2|].
  exact (recursiva_otima _ _ H1 H2).
Defined.

(** ** The table solver with costs that may be zero *)

Lemma valor_tabela_S projetos i c p :
  projetos !! i = Some p ->
  valor_tabela projetos (S i) c =
    if custo p >? c then valor_tabela projetos i c
    else Z.max (valor_tabela projetos i c) (valor p + valor_tabela projetos i (c - custo p)).
Proof. intros Hp. simpl. by rewrite Hp. Qed.

Lemma custos_nao_negativos_sublist l1 l2 :
  l1 `sublist_of` l2 -> custos_nao_negativos l2 -> custos_nao_negativos l1.
Proof.
  unfold custos_nao_negativos. induction 1 as [|p l1 l2 _ IH|p l1 l2 _ IH]; intros Hnn.
  - done.
  - apply Forall_cons in Hnn as [? ?]. apply Forall_cons. auto.
  - apply Forall_cons in Hnn as [? ?]. auto.
Qed.

Lemma soma_custo_nao_negativos ps : custos_nao_negativos ps -> 0 <= soma_custo ps.
Proof. induction 1; unfold soma_custo in *; simpl; lia. Qed.

Lemma tabela_inicial_tabela projetos capacidade :
  linhas_tabela projetos capacidade 0 (tabela_inicial (Z.of_nat (length projetos)) capacidade).
Proof.
  destruct (tabela_inicial_ok projetos capacidade) as (Hf & Hlen & Hcel).
  repeat split; [done..|]. intros j d Hj Hd. rewrite Hcel by done.
  by assert (j = O) as -> by lia.
Qed.

Lemma preencher_linha_tabela projetos capacidade (i : nat) tabela :
  custos_nao_negativos projetos -> (i < length projetos)%nat ->
  linhas_tabela projetos capacidade i tabela ->
  exists tabela', preencher_linha projetos capacidade (Z.of_nat (S i)) tabela = Ret tabela' /\
    linhas_tabela projetos capacidade (S i) tabela'.
Proof.
  intros Hnn Hi (Hf & Hlen & Hcel). unfold preencher_linha.
  destruct (lookup_lt_is_Some_2 projetos i Hi) as [p Hp].
  assert (0 <= custo p) as Hcp by (eapply (Forall_lookup_1 _ _ _ _ Hnn Hp)).
  replace (Z.of_nat (S i) - 1) with (Z.of_nat i) by lia.
  rewrite (ler_dentro projetos _ p) by (rewrite ?Nat2Z.id; done || lia).
  simpl. set (W := Z.to_nat (capacidade + 1)) in *.
  destruct (para_invariante
    (fun k t => forma W t /\ length t = S (length projetos) /\
       (forall j d, (j <= i)%nat -> (d < W)%nat ->
          cel t j d = valor_tabela projetos j (Z.of_nat d)) /\
       (forall d, (d < k)%nat -> (d < W)%nat ->
          cel t (S i) d = valor_tabela projetos (S i) (Z.of_nat d)))
    (preencher_celula p (Z.of_nat (S i))) (seqZ 0 (capacidade + 1)) tabela)
    as (tabela' & E & Hf' & Hlen' & Hcel' & Hnova).
  { repeat split; [done..|]. intros d Hd. lia. }
  { intros k x t Hx (Hf1 & Hlen1 & Hcel1 & Hnova1).
    apply lookup_seqZ in Hx as [-> Hk]. rewrite Z.add_0_l.
    rewrite (preencher_celula_dentro W) by (done || lia).
    eexists. split; [done|]. rewrite Nat2Z.id.
    repeat split.
    - by apply forma_atualizar.
    - unfold atualizar. by rewrite length_alter.
    - intros j d Hj Hd. rewrite cel_atualizar_ne by (left; lia). by apply Hcel1.
    - intros d Hd HdW. destruct (decide (d = k)) as [->|Hne].
      + rewrite (cel_atualizar_eq W) by (done || lia).
        rewrite (valor_tabela_S _ _ _ _ Hp).
        destruct (Z.gtb_spec (custo p) (Z.of_nat k)); [by rewrite Hcel1 by lia|].
        rewrite !Hcel1 by lia. by rewrite Z2Nat.id by lia.
      + rewrite cel_atualizar_ne by (right; lia). apply Hnova1; lia. }
  exists tabela'. split; [done|]. repeat split; [done..|].
  intros j d Hj Hd. destruct (decide (j = S i)) as [->|Hne].
  - apply Hnova; [|done]. rewrite length_seqZ. done.
  - apply Hcel'; [lia|done].
Qed.

Lemma preencher_tabela projetos capacidade :
  custos_nao_negativos projetos ->
  exists tabela, preencher projetos capacidade = Ret tabela /\
    linhas_tabela projetos capacidade (length projetos) tabela.
Proof.
  intros Hnn. unfold preencher.
  destruct (para_invariante (fun k t => linhas_tabela projetos capacidade k t)
    (preencher_linha projetos capacidade) (seqZ 1 (Z.of_nat (length projetos)))
    (tabela_inicial (Z.of_nat (length projetos)) capacidade)) as (tabela & E & Hok).
  { apply tabela_inicial_tabela. }
  { intros k x t Hx Hk. apply lookup_seqZ in Hx as [-> Hlt].
    replace (1 + Z.of_nat k) with (Z.of_nat (S k)) by lia.
    apply preencher_linha_tabela; [done|lia|done]. }
  exists tabela. split; [done|]. by rewrite length_seqZ, Nat2Z.id in Hok.
Qed.

(** No selection of the first [k] projects that fits in [c] is worth more
    than the recurrence. *)
Lemma valor_tabela_otimo projetos k : forall c sel,
  custos_nao_negativos projetos ->
  (k <= length projetos)%nat ->
  sel `sublist_of` take k projetos ->
  soma_custo sel <= c ->
  soma_valor sel <= valor_tabela projetos k c.
Proof.
  induction k as [|i IH]; intros c sel Hnn Hlen Hsub Hfit.
  { by apply sublist_nil_r in Hsub as ->. }
  destruct (lookup_lt_is_Some_2 projetos i) as [p Hp]; [lia|].
  rewrite (take_S_r _ _ _ Hp) in Hsub.
  rewrite (valor_tabela_S _ _ _ _ Hp).
  apply sublist_app_r in Hsub as (l1 & l2 & -> & Hl1 & Hl2).
  assert (Hl1nn : custos_nao_negativos l1).
  { eapply custos_nao_negativos_sublist; [done|].
    eapply custos_nao_negativos_sublist; [apply sublist_take|done]. }
  pose proof (soma_custo_nao_negativos l1 Hl1nn) as Hl1c.
  rewrite soma_custo_app in Hfit. rewrite soma_valor_app.
  apply sublist_cons_r in Hl2 as [Hl2|(l2' & -> & Hl2)].
  - apply sublist_nil_r in Hl2 as ->.
    change (soma_custo []) with 0 in Hfit. change (soma_valor []) with 0.
    pose proof (IH c l1 Hnn ltac:(lia) Hl1 ltac:(lia)).
    destruct (custo p >? c); lia.
  - apply sublist_nil_r in Hl2 as ->.
    change (soma_custo [p]) with (custo p + 0) in Hfit.
    change (soma_valor [p]) with (valor p + 0).
    pose proof (IH (c - custo p) l1 Hnn ltac:(lia) Hl1 ltac:(lia)).
    destruct (Z.gtb_spec (custo p) c); lia.
Qed.

(** The recurrence is reached by a selection of the first [k] projects
    that fits in [c]. *)
Lemma valor_tabela_alcancado projetos k : forall c,
  custos_nao_negativos projetos -> 0 <= c ->
  exists sel, sel `sublist_of` take k projetos /\
    soma_custo sel <= c /\ soma_valor sel = valor_tabela projetos k c.
Proof.
  induction k as [|i IH]; intros c Hnn Hc.
  { exists []. repeat split; [apply sublist_nil_l|done]. }
  destruct (projetos !! i) as [p|] eqn:Hp.
  2:{ exists []. simpl. rewrite Hp. repeat split; [apply sublist_nil_l|done]. }
  assert (0 <= custo p) as Hcp by (eapply (Forall_lookup_1 _ _ _ _ Hnn Hp)).
  rewrite (take_S_r _ _ _ Hp), (valor_tabela_S _ _ _ _ Hp).
  destruct (IH c Hnn Hc) as (sel & Hsub & Hfit & Hv).
  assert (Hsem : exists sel0, sel0 `sublist_of` take i projetos ++ [p] /\
    soma_custo sel0 <= c /\ soma_valor sel0 = valor_tabela projetos i c).
  { exists sel. split; [by apply sublist_inserts_r|done]. }
  destruct (Z.gtb_spec (custo p) c); [done|].
  destruct (Z.max_spec (valor_tabela projetos i c)
              (valor p + valor_tabela projetos i (c - custo p))) as [[Hlt ->]|[Hge ->]];
    [|done].
  destruct (IH (c - custo p) Hnn ltac:(lia)) as (sel' & Hsub' & Hfit' & Hv').
  exists (sel' ++ [p]). split; [by apply sublist_app|].
  rewrite soma_custo_app, soma_valor_app.
  change (soma_custo [p]) with (custo p + 0). change (soma_valor [p]) with (valor p + 0).
  lia.
Qed.

Lemma linhas_tabela_ler2 projetos capacidade tabela (i : nat) (c : Z) :
  linhas_tabela projetos capacidade (length projetos) tabela ->
  (i <= length projetos)%nat -> 0 <= c <= capacidade ->
  ler2 tabela (Z.of_nat i) c = Ret (valor_tabela projetos i c).
Proof.
  intros (Hf & Hlen & Hcel) Hi Hc.
  rewrite (ler2_dentro (Z.to_nat (capacidade + 1))) by (done || lia).
  rewrite Hcel by lia. by rewrite Z2Nat.id by lia.
Qed.

(** X14. When no cost is negative (zero is allowed) and the capacity is
    not negative, the fill returns a table whose cell [tabela[i][c]], for
    [0 <= i <= n] and [0 <= c <= capacidade], is the best value of a
    selection of the first [i] projects whose costs add up to at most [c]:
    some such selection has that value and none has more. *)
Theorem tabela_melhor_valor projetos capacidade :
  custos_nao_negativos projetos -> 0 <= capacidade ->
  exists tabela, preencher projetos capacidade = Ret tabela /\
    forall (i : nat) (c : Z), (i <= length projetos)%nat -> 0 <= c <= capacidade ->
      exists v, ler2 tabela (Z.of_nat i) c = Ret v /\
        (exists sel, sel `sublist_of` take i projetos /\ soma_custo sel <= c /\
           soma_valor sel = v) /\
        (forall sel, sel `sublist_of` take i projetos -> soma_custo sel <= c ->
           soma_valor sel <= v).
Proof.
  intros Hnn Hcap.
  destruct (preencher_tabela projetos capacidade Hnn) as (tabela & E & Hok).
  exists tabela. split; [done|]. intros i c Hi Hc.
  exists (valor_tabela projetos i c).
  split; [by apply (linhas_tabela_ler2 projetos capacidade)|]. split.
  - apply valor_tabela_alcancado; [done|lia].
  - intros sel Hsub Hfit. by apply valor_tabela_otimo.
Qed.

Lemma tabela_melhor_valor_witness :
  custos_nao_negativos [MkProjeto "A" 5 0; MkProjeto "B" 3 2] /\ 0 <= 2 /\
  exists tabela, preencher [MkProjeto "A" 5 0; MkProjeto "B" 3 2] 2 = Ret tabela /\
    exists v, ler2 tabela 2 2 = Ret v /\
      (forall sel, sel `sublist_of` [MkProjeto "A" 5 0; MkProjeto "B" 3 2] ->
         soma_custo sel <= 2 -> soma_valor sel <= v).
Proof.
  assert (H1 : custos_nao_negativos [MkProjeto "A" 5 0; MkProjeto "B" 3 2])
    by (repeat constructor; discriminate).
  assert (H2 : 0 <= 2) by lia.
  split; [exact H1|]. split; [exact H2|].
  destruct (tabela_melhor_valor _ _ H1 H2) as (tabela & E & Hcel).
  exists tabela. split; [exact E|].
  destruct (Hcel 2%nat 2 ltac:(simpl; lia) ltac:(lia)) as (v & Hv & _ & Hmax).
  exists v. split; [exact Hv|exact Hmax].
Defined.

Local Arguments valor_tabela : simpl never.

(** The walk back on a table of the recurrence. *)
Lemma reconstruir_tabela projetos capacidade tabela :
  custos_nao_negativos projetos -> 0 <= capacidade ->
  linhas_tabela projetos capacidade (length projetos) tabela ->
  exists sel, sel `sublist_of` projetos /\
    reconstruir projetos capacidade tabela = Ret (soma_valor sel, nome <$> sel) /\
    soma_custo sel <= capacidade /\
    soma_valor sel = valor_tabela projetos (length projetos) capacidade.
Proof.
  intros Hnn Hcap Hok. unfold reconstruir.
  set (n := length projetos) in *.
  rewrite (linhas_tabela_ler2 projetos capacidade tabela n capacidade) by (done || lia).
  simpl.
  destruct (para_invariante
    (fun k (st : list string * Z) => 0 <= st.2 <= capacidade /\
       exists sel, sel `sublist_of` drop (n - k) projetos /\
         reverse st.1 = nome <$> sel /\
         valor_tabela projetos n capacidade =
           valor_tabela projetos (n - k) st.2 + soma_valor sel /\
         soma_custo sel = capacidade - st.2)
    (passo_reconstrucao projetos tabela) (reverse (seqZ 1 (Z.of_nat n))) ([], capacidade))
    as ([itens c] & E & Hc & sel & Hsub & Hnomes & Hval & Hcusto).
  { simpl. split; [lia|]. exists []. rewrite Nat.sub_0_r.
    change (soma_valor []) with 0. change (soma_custo []) with 0.
    repeat split; [apply sublist_nil_l|lia|lia]. }
  { intros k x [itens c] Hx (Hc & sel & Hsub & Hnomes & Hval & Hcusto).
    simpl in Hc, Hnomes, Hval, Hcusto.
    apply reverse_lookup_Some in Hx as [Hx Hk]. rewrite length_seqZ, Nat2Z.id in Hx, Hk.
    apply lookup_seqZ in Hx as [-> _].
    set (m := (n - S k)%nat) in *.
    replace (n - k)%nat with (S m) in Hsub, Hval by lia.
    replace (1 + Z.of_nat m) with (Z.of_nat (S m)) by lia.
    unfold passo_reconstrucao.
    replace (Z.of_nat (S m) - 1) with (Z.of_nat m) by lia.
    rewrite (linhas_tabela_ler2 projetos capacidade tabela (S m) c) by (done || lia).
    simpl.
    rewrite (linhas_tabela_ler2 projetos capacidade tabela m c) by (done || lia).
    simpl.
    destruct (lookup_lt_is_Some_2 projetos m) as [p Hp]; [lia|].
    assert (0 <= custo p) as Hcp by (eapply (Forall_lookup_1 _ _ _ _ Hnn Hp)).
    pose proof (valor_tabela_S projetos m c p Hp) as HS.
    destruct (Z.eqb_spec (valor_tabela projetos (S m) c) (valor_tabela projetos m c))
      as [Heq|Hne].
    - eexists. split; [done|]. simpl. split; [done|].
      exists sel. split; [|split; [done|split; [lia|done]]].
      rewrite (drop_S _ _ _ Hp). by apply sublist_cons.
    - rewrite (ler_dentro projetos _ p) by (rewrite ?Nat2Z.id; done || lia). simpl.
      destruct (Z.gtb_spec (custo p) c); [lia|].
      eexists. split; [done|]. simpl. split; [lia|].
      exists (p :: sel). split; [|split; [|split]].
      + rewrite (drop_S _ _ _ Hp). by apply sublist_skip.
      + by rewrite reverse_app, Hnomes.
      + change (soma_valor (p :: sel)) with (valor p + soma_valor sel). lia.
      + change (soma_custo (p :: sel)) with (custo p + soma_custo sel). lia. }
  rewrite E. simpl. simpl in Hnomes, Hval, Hcusto, Hc.
  rewrite length_reverse, length_seqZ, Nat2Z.id, Nat.sub_diag in Hsub, Hval.
  change (valor_tabela projetos 0 c) with 0 in Hval. exists sel. rewrite drop_0 in Hsub.
  split; [done|]. split; [by rewrite Hnomes, Hval|]. split; lia.
Qed.

(** X15. When no cost is negative (zero is allowed) and the capacity is
    not negative, the table solver returns the value and the names of a
    selection of the projects, in input order, that fits in the capacity
    and is worth at least as much as any part of the projects that
    fits. *)
Theorem pd_otima projetos capacidade :
  custos_nao_negativos projetos -> 0 <= capacidade ->
  exists sel, sel `sublist_of` projetos /\
    mochila_pd projetos capacidade = Ret (soma_valor sel, nome <$> sel) /\
    soma_custo sel <= capacidade /\
    forall outra, outra ⊆+ projetos -> soma_custo outra <= capacidade ->
      soma_valor outra <= soma_valor sel.
Proof.
  intros Hnn Hcap. unfold mochila_pd.
  destruct (preencher_tabela projetos capacidade Hnn) as (tabela & E & Hok).
  rewrite E. simpl.
  destruct (reconstruir_tabela projetos capacidade tabela Hnn Hcap Hok)
    as (sel & Hsub & Hrec & Hfit & Hval).
  exists sel. split; [done|]. split; [done|]. split; [done|].
  intros outra (l2 & Hperm & Hsub2)%submseteq_sublist_r Hofit.
  rewrite Hval, (soma_valor_perm _ _ Hperm).
  rewrite (soma_custo_perm _ _ Hperm) in Hofit.
  apply valor_tabela_otimo; [done..| |done]. by rewrite take_ge.
Qed.

Lemma pd_otima_witness :
  custos_nao_negativos [MkProjeto "A" 5 0; MkProjeto "B" 3 2] /\ 0 <= 2 /\
  exists sel, sel `sublist_of` [MkProjeto "A" 5 0; MkProjeto "B" 3 2] /\
    mochila_pd [MkProjeto "A" 5 0; MkProjeto "B" 3 2] 2 = Ret (soma_valor sel, nome <$> sel) /\
    soma_custo sel <= 2 /\
    forall outra, outra ⊆+ [MkProjeto "A" 5 0; MkProjeto "B" 3 2] ->
      soma_custo outra <= 2 -> soma_valor outra <= soma_valor sel.
Proof.
  assert (H1 : custos_nao_negativos [MkProjeto "A" 5 0; MkProjeto "B" 3 2])
    by (repeat constructor; discriminate).
  assert (H2 : 0 <= 2) by lia.
  split; [exact H1|]. split; [exact H2|].
  exact (pd_otima _ _ H1 H2).
Defined.

(** ** When the table solver returns *)





(** With a project of cost zero the recursion, which stops at [c <= 0],
    can miss what the table solver finds. *)
Example custo_zero_diverge :
  mochila_recursiva [MkProjeto "A" 5 0; MkProjeto "B" 3 2] 2 = (5, ["A"]) /\
  mochila_pd [MkProjeto "A" 5 0; MkProjeto "B" 3 2] 2 = Ret (8, ["A"; "B"]).
Proof. split; vm_compute; reflexivity. Qed.
